(** * elftools/dwarf/location_expr.py: decoding DWARF location expressions

    A shallow embedding of the opcode tables and of
    [GenericLocationExprVisitor], followed by the properties of the
    table construction, the dispatch table and the decode loop. *)

From Stdlib Require Import ZArith List Strings.String Strings.Byte.
From Stdlib Require Import DecimalString DecimalZ.
From stdpp Require Import base option list strings gmap fin_maps.

Local Open Scope string_scope.
Local Open Scope list_scope.
Local Open Scope Z_scope.

(** ** Location expression opcodes *)

(** The keyword arguments of [dict(...)], in source order. *)
Definition DW_OP_static : list (string * Z) :=
  [ ("DW_OP_addr", 0x03);
    ("DW_OP_deref", 0x06);
    ("DW_OP_const1u", 0x08);
    ("DW_OP_const1s", 0x09);
    ("DW_OP_const2u", 0x0a);
    ("DW_OP_const2s", 0x0b);
    ("DW_OP_const4u", 0x0c);
    ("DW_OP_const4s", 0x0d);
    ("DW_OP_const8u", 0x0e);
    ("DW_OP_const8s", 0x0f);
    ("DW_OP_constu", 0x10);
    ("DW_OP_consts", 0x11);
    ("DW_OP_dup", 0x12);
    ("DW_OP_drop", 0x13);
    ("DW_OP_over", 0x14);
    ("DW_OP_pick", 0x15);
    ("DW_OP_swap", 0x16);
    ("DW_OP_rot", 0x17);
    ("DW_OP_xderef", 0x18);
    ("DW_OP_abs", 0x19);
    ("DW_OP_and", 0x1a);
    ("DW_OP_div", 0x1b);
    ("DW_OP_minus", 0x1c);
    ("DW_OP_mod", 0x1d);
    ("DW_OP_mul", 0x1e);
    ("DW_OP_neg", 0x1f);
    ("DW_OP_not", 0x20);
    ("DW_OP_or", 0x21);
    ("DW_OP_plus", 0x22);
    ("DW_OP_plus_uconst", 0x23);
    ("DW_OP_shl", 0x24);
    ("DW_OP_shr", 0x25);
    ("DW_OP_shra", 0x26);
    ("DW_OP_xor", 0x27);
    ("DW_OP_bra", 0x28);
    ("DW_OP_eq", 0x29);
    ("DW_OP_ge", 0x2a);
    ("DW_OP_gt", 0x2b);
    ("DW_OP_le", 0x2c);
    ("DW_OP_lt", 0x2d);
    ("DW_OP_ne", 0x2e);
    ("DW_OP_skip", 0x2f);
    ("DW_OP_regx", 0x90);
    ("DW_OP_fbreg", 0x91);
    ("DW_OP_bregx", 0x92);
    ("DW_OP_piece", 0x93);
    ("DW_OP_deref_size", 0x94);
    ("DW_OP_xderef_size", 0x95);
    ("DW_OP_nop", 0x96);
    ("DW_OP_push_object_address", 0x97);
    ("DW_OP_call2", 0x98);
    ("DW_OP_call4", 0x99);
    ("DW_OP_call_ref", 0x9a);
    ("DW_OP_form_tls_address", 0x9b);
    ("DW_OP_call_frame_cfa", 0x9c);
    ("DW_OP_bit_piece", 0x9d);
    ("DW_OP_implicit_value", 0x9e);
    ("DW_OP_stack_value", 0x9f);
    ("DW_OP_GNU_push_tls_address", 0xe0);
    ("DW_OP_GNU_uninit", 0xf0);
    ("DW_OP_GNU_encoded_addr", 0xf1);
    ("DW_OP_GNU_implicit_pointer", 0xf2);
    ("DW_OP_GNU_entry_value", 0xf3);
    ("DW_OP_GNU_const_type", 0xf4);
    ("DW_OP_GNU_regval_type", 0xf5);
    ("DW_OP_GNU_deref_type", 0xf6);
    ("DW_OP_GNU_convert", 0xf7);
    ("DW_OP_GNU_reinterpret", 0xf9) ].

(** [map[k] = v], one assignment after the other. *)
Definition dict_of (kvs : list (string * Z)) : gmap string Z :=
  fold_left (fun m kv => <[kv.1 := kv.2]> m) kvs ∅.

(** ['%s' % index] for a Python integer: decimal digits, with a leading
    minus sign below zero. *)
Definition str_of_int (index : Z) : string :=
  NilZero.string_of_int (Z.to_int index).

(** [range(a, b)] as the list of its values. *)
Definition range (a b : Z) : list Z := seqZ a (b - a).

(** The body of [_generate_dynamic_values]: for every index of
    [range(index_start, index_end + 1)], in order, the plain item
    assignment [map[name] = value]. *)
Definition _generate_dynamic_values
    (map : gmap string Z) (prefix : string)
    (index_start index_end value_start : Z) : gmap string Z :=
  fold_left
    (fun map index =>
       let name := prefix +:+ str_of_int index in
       let value := value_start + index - index_start in
       <[name := value]> map)
    (range index_start (index_end + 1)) map.

Definition DW_OP_name2opcode : gmap string Z :=
  let m := dict_of DW_OP_static in
  let m := _generate_dynamic_values m "DW_OP_lit" 0 31 0x30 in
  let m := _generate_dynamic_values m "DW_OP_reg" 0 31 0x50 in
  _generate_dynamic_values m "DW_OP_breg" 0 31 0x70.

(** [dict((v, k) for k, v in items)]: every pair is inserted reversed,
    in the order of the iteration. *)
Definition invert_items (items : list (string * Z)) : gmap Z string :=
  fold_left (fun m kv => <[kv.2 := kv.1]> m) items ∅.

(** [dict((v, k) for k, v in d.iteritems())], with the order in which
    the map lists its items for the order of [d.iteritems()]; that
    order does not matter for a map without repeated values
    ([invert_items_order] below). *)
Definition invert_dict (d : gmap string Z) : gmap Z string :=
  invert_items (map_to_list d).

Definition DW_OP_opcode2name : gmap Z string :=
  invert_dict DW_OP_name2opcode.


(** ** Exceptions, streams and the primitive codec *)

Inductive key := KStr (s : string) | KInt (z : Z).

Inductive exn :=
| KeyError (k : key)
| NotImplementedError
| ValueError
| AttributeError
| ELFParseError
| ConsumerError (msg : string).

(** A call either returns a value or raises. *)
Definition result (A : Type) : Type := exn + A.

(** A positioned byte source: the whole contents and the read position,
    as a [StringIO] object has them. *)
Record Stream := mkStream { buf : list byte; pos : nat }.

(** [stream.read(n)]: at most [n] bytes from the current position, which
    advances by the number of bytes returned. *)
Definition read (n : nat) (s : Stream) : list byte * Stream :=
  let data := take n (drop (pos s) (buf s)) in
  (data, mkStream (buf s) (pos s + length data)).

Definition StringIO (data : list byte) : Stream := mkStream data 0.

(** Bytes left between the position and the end of the contents. *)
Definition remaining (s : Stream) : nat := length (buf s) - pos s.

(** [ord(byte)] of a one-character string. *)
Definition ord (b : byte) : Z := Z.of_N (Byte.to_N b).

(** Modelled from the spec: [bytelist2string] of [common/utils.py] is not
    under src/. The spec has a finite ordered sequence of byte values
    wrapped into an equivalent positioned-read view: the value at index
    [i] becomes the character at index [i]; a value that is not a byte
    value ([0..255]) has no character ([chr] raises [ValueError]). *)
Fixpoint bytelist2string (bytelist : list Z) : result (list byte) :=
  match bytelist with
  | [] => inr []
  | b :: rest =>
      if bool_decide (0 <= b < 256) then
        match Byte.of_N (Z.to_N b), bytelist2string rest with
        | Some c, inr cs => inr (c :: cs)
        | Some _, inl e => inl e
        | None, _ => inl ValueError
        end
      else inl ValueError
  end.

(** The struct factories of [self.structs] that the dispatch table uses. *)
Inductive Struct :=
| Dwarf_target_addr
| Dwarf_uint8 | Dwarf_int8
| Dwarf_uint16 | Dwarf_int16
| Dwarf_uint32 | Dwarf_int32
| Dwarf_uint64 | Dwarf_int64
| Dwarf_uleb128 | Dwarf_sleb128.

(** Whether a struct is one of the two base-128 (LEB128) integers. *)
Definition is_leb128 (s : Struct) : bool :=
  match s with Dwarf_uleb128 | Dwarf_sleb128 => true | _ => false end.

(** The two functions the dispatch table binds: the bound method
    [_visit_OP_with_no_args] and the closure that
    [_make_visitor_for_struct] returns for a struct. *)
Inductive visitor_fn :=
| visit_OP_with_no_args
| visitor_for_struct (struct : Struct).

Definition _make_visitor_for_struct (struct : Struct) : visitor_fn :=
  visitor_for_struct struct.

#[global] Instance Struct_eq_dec : EqDecision Struct.
Proof. solve_decision. Defined.

#[global] Instance visitor_fn_eq_dec : EqDecision visitor_fn.
Proof. solve_decision. Defined.

(** ** The visitor object and its methods *)

Section Visitor.

(** [value] is what the primitive codec decodes; [U] holds whatever
    fields a subclass adds to the object. *)
Context {value U : Type}.

(** Calls into the object that a run of [process_expr] makes, in order:
    the trace of a run. [Visit] is a call of a function bound in the
    dispatch table. *)
Inductive call :=
| Visit (f : visitor_fn) (opcode : Z) (opcode_name : string)
| Default_visit (opcode : Z) (opcode_name : string)
| After_visit (opcode : option Z) (opcode_name : option string)
    (args : list value).

(** The attributes of a [GenericLocationExprVisitor]; [None] is Python's
    [None]. *)
Record Visitor := mkVisitor {
  stream : option Stream;
  _dispatch_table : gmap Z visitor_fn;
  _cur_opcode : option Z;
  _cur_opcode_name : option string;
  _cur_args : list value;
  user : U
}.

Definition set_stream (x : option Stream) (self : Visitor) : Visitor :=
  mkVisitor x (_dispatch_table self) (_cur_opcode self)
    (_cur_opcode_name self) (_cur_args self) (user self).
Definition set_dispatch_table (x : gmap Z visitor_fn) (self : Visitor) :=
  mkVisitor (stream self) x (_cur_opcode self)
    (_cur_opcode_name self) (_cur_args self) (user self).
Definition set_cur_opcode (x : option Z) (self : Visitor) : Visitor :=
  mkVisitor (stream self) (_dispatch_table self) x
    (_cur_opcode_name self) (_cur_args self) (user self).
Definition set_cur_opcode_name (x : option string) (self : Visitor) :=
  mkVisitor (stream self) (_dispatch_table self) (_cur_opcode self)
    x (_cur_args self) (user self).
Definition set_cur_args (x : list value) (self : Visitor) : Visitor :=
  mkVisitor (stream self) (_dispatch_table self) (_cur_opcode self)
    (_cur_opcode_name self) x (user self).

(** A method body: it runs on the object, returns or raises, leaves the
    object as it mutated it, and emits the calls it made. *)
Definition M (A : Type) : Type := Visitor -> result A * Visitor * list call.

Definition ret {A} (a : A) : M A := fun self => (inr a, self, []).
Definition raise {A} (e : exn) : M A := fun self => (inl e, self, []).
Definition bind {A B} (m : M A) (f : A -> M B) : M B :=
  fun self =>
    match m self with
    | (inl e, self1, t1) => (inl e, self1, t1)
    | (inr a, self1, t1) =>
        let '(r, self2, t2) := f a self1 in (r, self2, t1 ++ t2)
    end.
Definition get {A} (field : Visitor -> A) : M A :=
  fun self => (inr (field self), self, []).
Definition modify (f : Visitor -> Visitor) : M unit :=
  fun self => (inr tt, f self, []).
Definition emit (c : call) : M unit := fun self => (inr tt, self, [c]).

Notation "x <- m ;; k" := (bind m (fun x => k))
  (at level 100, m at next level, k at level 200, right associativity).
Notation "m ;;; k" := (bind m (fun _ => k))
  (at level 100, k at level 200, right associativity).

(** [for x in xs: body(x)] *)
Fixpoint for_each {A} (xs : list A) (body : A -> M unit) : M unit :=
  match xs with
  | [] => ret tt
  | x :: rest => body x ;;; for_each rest body
  end.

(** The primitive codec, [struct_parse(struct, stream)] of
    [common/utils.py] on the structs of [self.structs]: it reads from
    the stream object, which it may leave advanced also when it raises.
    Owned by the caller's codec configuration, so a parameter here. *)
Variable struct_parse : Struct -> Stream -> result value * Stream.

(** The methods a subclass is expected to override. Their bodies see
    the whole object. [_after_visit] takes [*args], which receives the
    one positional argument [self._cur_args]. *)
Record Overrides := mkOverrides {
  _after_visit :
    option Z -> option string -> list value ->
    Visitor -> result unit * Visitor;
  _default_visitor : Z -> string -> Visitor -> result unit * Visitor
}.

(** The two method bodies of [GenericLocationExprVisitor] itself. *)
Definition GenericLocationExprVisitor : Overrides :=
  {| _after_visit := fun _ _ _ self => (inl NotImplementedError, self);
     _default_visitor := fun _ _ self => (inl NotImplementedError, self) |}.

Variable cls : Overrides.

(** A call of an overridable method: recorded, then run. *)
Definition call_method (c : call) (body : Visitor -> result unit * Visitor)
  : M unit :=
  fun self => let '(r, self1) := body self in (r, self1, [c]).

Definition _visit_OP_with_no_args (opcode : Z) (opcode_name : string)
  : M unit :=
  modify (set_cur_args []).

(** The closure [visitor] of [_make_visitor_for_struct]:
    [self._cur_args = [struct_parse(struct, self.stream)]]. *)
Definition struct_visitor (struct : Struct) (opcode : Z)
    (opcode_name : string) : M unit :=
  fun self =>
    match stream self with
    | None => (inl AttributeError, self, [])
    | Some s =>
        match struct_parse struct s with
        | (inl e, s1) => (inl e, set_stream (Some s1) self, [])
        | (inr v, s1) =>
            (inr tt, set_cur_args [v] (set_stream (Some s1) self), [])
        end
    end.

(** Calling a function object taken from the dispatch table. *)
Definition apply_visitor_fn (f : visitor_fn) (opcode : Z)
    (opcode_name : string) : M unit :=
  emit (Visit f opcode opcode_name) ;;;
  match f with
  | visit_OP_with_no_args => _visit_OP_with_no_args opcode opcode_name
  | visitor_for_struct struct => struct_visitor struct opcode opcode_name
  end.

(** [add] of [_init_dispatch_table]. *)
Definition add (opcode_name : string) (func : visitor_fn) : M unit :=
  match DW_OP_name2opcode !! opcode_name with
  | None => raise (KeyError (KStr opcode_name))
  | Some opcode =>
      modify (fun self =>
        set_dispatch_table (<[opcode := func]> (_dispatch_table self)) self)
  end.

Definition no_args_ops : list string :=
  [ "DW_OP_deref"; "DW_OP_dup"; "DW_OP_drop"; "DW_OP_over";
    "DW_OP_swap"; "DW_OP_rot"; "DW_OP_xderef"; "DW_OP_abs";
    "DW_OP_and"; "DW_OP_div"; "DW_OP_minus"; "DW_OP_mod";
    "DW_OP_mul"; "DW_OP_neg"; "DW_OP_not"; "DW_OP_or";
    "DW_OP_eq"; "DW_OP_ge"; "DW_OP_gt"; "DW_OP_le"; "DW_OP_lt";
    "DW_OP_ne"; "DW_OP_plus"; "DW_OP_shl"; "DW_OP_shr";
    "DW_OP_shra" ].

Definition _init_dispatch_table : M unit :=
  modify (set_dispatch_table ∅) ;;;
  for_each no_args_ops (fun op => add op visit_OP_with_no_args) ;;;
  add "DW_OP_addr" (_make_visitor_for_struct Dwarf_target_addr) ;;;
  add "DW_OP_const1u" (_make_visitor_for_struct Dwarf_uint8) ;;;
  add "DW_OP_const1s" (_make_visitor_for_struct Dwarf_int8) ;;;
  add "DW_OP_const2u" (_make_visitor_for_struct Dwarf_uint16) ;;;
  add "DW_OP_const2s" (_make_visitor_for_struct Dwarf_int16) ;;;
  add "DW_OP_const4u" (_make_visitor_for_struct Dwarf_uint32) ;;;
  add "DW_OP_const4s" (_make_visitor_for_struct Dwarf_int32) ;;;
  add "DW_OP_const8u" (_make_visitor_for_struct Dwarf_uint64) ;;;
  add "DW_OP_const8s" (_make_visitor_for_struct Dwarf_int64) ;;;
  add "DW_OP_constu" (_make_visitor_for_struct Dwarf_uleb128) ;;;
  add "DW_OP_consts" (_make_visitor_for_struct Dwarf_sleb128) ;;;
  add "DW_OP_plus_uconst" (_make_visitor_for_struct Dwarf_uleb128) ;;;
  add "DW_OP_pick" (_make_visitor_for_struct Dwarf_uint8) ;;;
  add "DW_OP_bra" (_make_visitor_for_struct Dwarf_int16) ;;;
  add "DW_OP_skip" (_make_visitor_for_struct Dwarf_int16) ;;;
  for_each (range 0 32) (fun i =>
    add ("DW_OP_lit" +:+ str_of_int i) visit_OP_with_no_args ;;;
    add ("DW_OP_reg" +:+ str_of_int i) visit_OP_with_no_args ;;;
    add ("DW_OP_breg" +:+ str_of_int i)
        (_make_visitor_for_struct Dwarf_sleb128)).

(** [__init__]; the object starts with the subclass's fields [u]. *)
Definition __init__ (u : U) : result unit * Visitor * list call :=
  (_init_dispatch_table ;;;
   modify (set_cur_opcode None) ;;;
   modify (set_cur_opcode_name None) ;;;
   modify (set_cur_args []))
    (mkVisitor None ∅ None None [] u).

(** The two shapes [process_expr] accepts: an object with [read] and
    [seek], or a list of byte values. *)
Inductive Expr :=
| StreamObj (s : Stream)
| ByteList (bytelist : list Z).

(** The first statement of [process_expr]: binding [self.stream]. *)
Definition bind_stream (expr : Expr) : M unit :=
  match expr with
  | StreamObj s => modify (set_stream (Some s))
  | ByteList bytelist =>
      match bytelist2string bytelist with
      | inl e => raise e
      | inr data => modify (set_stream (Some (StringIO data)))
      end
  end.

(** [self.stream.read(1)] *)
Definition stream_read (n : nat) : M (list byte) :=
  fun self =>
    match stream self with
    | None => (inl AttributeError, self, [])
    | Some s =>
        let '(data, s1) := read n s in
        (inr data, set_stream (Some s1) self, [])
    end.

(** One iteration of the [while True] loop; [false] is [break]. *)
Definition loop_body : M bool :=
  byte <- stream_read 1 ;;
  match byte with
  | [] => ret false
  | b :: _ =>
      modify (set_cur_opcode (Some (ord b))) ;;;
      match DW_OP_opcode2name !! ord b with
      | None => raise (KeyError (KInt (ord b)))
      | Some opcode_name =>
          modify (set_cur_opcode_name (Some opcode_name)) ;;;
          table <- get _dispatch_table ;;
          match table !! ord b with
          | Some f => apply_visitor_fn f (ord b) opcode_name
          | None =>
              call_method (Default_visit (ord b) opcode_name)
                (_default_visitor cls (ord b) opcode_name)
          end ;;;
          opcode <- get _cur_opcode ;;
          name <- get _cur_opcode_name ;;
          args <- get _cur_args ;;
          call_method (After_visit opcode name args)
            (_after_visit cls opcode name args) ;;;
          ret true
      end
  end.

(** The loop, with [fuel] bounding the number of iterations; [None] when
    the bound is reached before the loop exits. *)
Fixpoint process_loop (fuel : nat) (self : Visitor)
  : option (result unit * Visitor * list call) :=
  match fuel with
  | O => None
  | S fuel =>
      match loop_body self with
      | (inl e, self1, t1) => Some (inl e, self1, t1)
      | (inr false, self1, t1) => Some (inr tt, self1, t1)
      | (inr true, self1, t1) =>
          match process_loop fuel self1 with
          | None => None
          | Some (r, self2, t2) => Some (r, self2, t1 ++ t2)
          end
      end
  end.

Definition process_expr (fuel : nat) (expr : Expr) (self : Visitor)
  : option (result unit * Visitor * list call) :=
  match bind_stream expr self with
  | (inl e, self1, t1) => Some (inl e, self1, t1)
  | (inr _, self1, t1) =>
      match process_loop fuel self1 with
      | None => None
      | Some (r, self2, t2) => Some (r, self2, t1 ++ t2)
      end
  end.

(** ** Instruction streams

    What it means for the bytes at the position of the stream to be one
    instruction, stated on the bytes, the tables, the codec and the
    subclass's methods. *)

(** The completion-hook calls of a trace, in order, with their
    arguments. *)
Fixpoint completion_calls (t : list call)
  : list (option Z * option string * list value) :=
  match t with
  | [] => []
  | After_visit opcode name args :: rest =>
      (opcode, name, args) :: completion_calls rest
  | _ :: rest => completion_calls rest
  end.

(** A decoded instruction and the number of bytes it occupies. *)
Record instr := mkInstr {
  i_opcode : Z;
  i_name : string;
  i_args : list value;
  i_size : nat
}.

Definition hook_args (i : instr)
  : option Z * option string * list value :=
  (Some (i_opcode i), Some (i_name i), i_args i).

(** Bytes left in the stream of the object. *)
Definition bytes_left (self : Visitor) : nat :=
  match stream self with
  | Some s => remaining s
  | None => O
  end.

(** The object once the opcode byte [b] has been read and named. *)
Definition opcode_read (b : byte) (opcode_name : string) (s : Stream)
    (self : Visitor) : Visitor :=
  set_cur_opcode_name (Some opcode_name)
    (set_cur_opcode (Some (ord b))
       (set_stream (Some (mkStream (buf s) (pos s + 1))) self)).

(** The operand rule of an opcode returns: the bound no-operand rule,
    a bound struct rule whose struct the codec decodes, or the
    subclass's default visitor for an opcode without a bound rule. *)
Inductive rule_returns (opcode : Z) (opcode_name : string)
    (self : Visitor) : Visitor -> Prop :=
| rule_no_args :
    _dispatch_table self !! opcode = Some visit_OP_with_no_args ->
    rule_returns opcode opcode_name self (set_cur_args [] self)
| rule_struct struct s v s1 :
    _dispatch_table self !! opcode = Some (visitor_for_struct struct) ->
    stream self = Some s ->
    struct_parse struct s = (inr v, s1) ->
    rule_returns opcode opcode_name self
      (set_cur_args [v] (set_stream (Some s1) self))
| rule_default self1 :
    _dispatch_table self !! opcode = None ->
    _default_visitor cls opcode opcode_name self = (inr tt, self1) ->
    _cur_opcode self1 = _cur_opcode self ->
    _cur_opcode_name self1 = _cur_opcode_name self ->
    rule_returns opcode opcode_name self self1.

(** The stream of [self] holds, from its position on, the listed
    instructions one after the other: each starts with a defined
    opcode, its operand rule returns having consumed exactly the [k]
    operand bytes that follow, and the subclass's completion hook
    returns without touching the stream. [self'] is the object after
    the last of them. *)
Inductive instructions : Visitor -> list instr -> Visitor -> Prop :=
| instructions_nil self : instructions self [] self
| instructions_cons self s b opcode_name self1 s1 k self2 rest self' :
    stream self = Some s ->
    buf s !! pos s = Some b ->
    DW_OP_opcode2name !! ord b = Some opcode_name ->
    rule_returns (ord b) opcode_name
      (opcode_read b opcode_name s self) self1 ->
    stream self1 = Some s1 ->
    buf s1 = buf s ->
    pos s1 = (pos s + 1 + k)%nat ->
    _after_visit cls (Some (ord b)) (Some opcode_name) (_cur_args self1)
      self1 = (inr tt, self2) ->
    stream self2 = Some s1 ->
    instructions self2 rest self' ->
    instructions self
      (mkInstr (ord b) opcode_name (_cur_args self1) (1 + k) :: rest)
      self'.


(** The call the loop makes for the operand rule of an opcode. *)
Definition rule_call (self : Visitor) (opcode : Z) (opcode_name : string)
  : call :=
  match _dispatch_table self !! opcode with
  | Some f => Visit f opcode opcode_name
  | None => Default_visit opcode opcode_name
  end.

(** The length of the input [process_expr] is given. *)
Definition input_length (expr : Expr) : nat :=
  match expr with
  | StreamObj s => remaining s
  | ByteList bytelist => length bytelist
  end.

End Visitor.

Arguments call : clear implicits.
Arguments Visitor : clear implicits.
Arguments Overrides : clear implicits.
Arguments instr : clear implicits.

(** ** A codec and a subclass to run the visitor on *)

Module Codec.

(** Modelled from the spec: the Primitive Codec ([struct_parse] of
    [common/utils.py] on the structs of [dwarf/structs.py]) is not under
    src/. The spec has it decode a fixed-width integer of 1, 2, 4 or 8
    bytes, signed or unsigned, an address-sized field, or a base-128
    integer whose every byte carries 7 value bits and a continuation
    bit, advancing the position by the bytes consumed, and fail when an
    operand needs more bytes than remain. Byte order and address size
    are the caller's configuration. *)
Record config := mkConfig { little_endian : bool; address_size : nat }.

Definition width (cfg : config) (struct : Struct) : option nat :=
  match struct with
  | Dwarf_target_addr => Some (address_size cfg)
  | Dwarf_uint8 | Dwarf_int8 => Some 1%nat
  | Dwarf_uint16 | Dwarf_int16 => Some 2%nat
  | Dwarf_uint32 | Dwarf_int32 => Some 4%nat
  | Dwarf_uint64 | Dwarf_int64 => Some 8%nat
  | Dwarf_uleb128 | Dwarf_sleb128 => None
  end.

Definition signed (struct : Struct) : bool :=
  match struct with
  | Dwarf_int8 | Dwarf_int16 | Dwarf_int32 | Dwarf_int64
  | Dwarf_sleb128 => true
  | _ => false
  end.

(** Least significant group first, [radix] values per byte. *)
Fixpoint unsigned_of (radix : Z) (digits : list Z) : Z :=
  match digits with
  | [] => 0
  | d :: rest => d + radix * unsigned_of radix rest
  end.

Definition to_signed (bits : Z) (u : Z) : Z :=
  if u <? 2 ^ (bits - 1) then u else u - 2 ^ bits.

(** Length of the base-128 integer at the head of [bs]: up to and
    including the first byte without the continuation bit. *)
Fixpoint leb128_length (bs : list byte) : option nat :=
  match bs with
  | [] => None
  | b :: rest =>
      if ord b <? 0x80 then Some 1%nat
      else S <$> leb128_length rest
  end.

Definition decode_fixed (cfg : config) (struct : Struct)
    (data : list byte) : Z :=
  let bytes := if little_endian cfg then data else rev data in
  let u := unsigned_of 256 (ord <$> bytes) in
  if signed struct then to_signed (8 * Z.of_nat (length data)) u else u.

Definition decode_leb128 (struct : Struct) (data : list byte) : Z :=
  let u := unsigned_of 128 ((fun b => Z.land (ord b) 0x7f) <$> data) in
  if signed struct then to_signed (7 * Z.of_nat (length data)) u else u.

Definition struct_parse (cfg : config) (struct : Struct) (s : Stream)
  : result Z * Stream :=
  match width cfg struct with
  | Some w =>
      let '(data, s1) := read w s in
      if bool_decide (length data = w)
      then (inr (decode_fixed cfg struct data), s1)
      else (inl ELFParseError, s1)
  | None =>
      match leb128_length (drop (pos s) (buf s)) with
      | Some n =>
          let '(data, s1) := read n s in
          (inr (decode_leb128 struct data), s1)
      | None => (inl ELFParseError, (read (remaining s) s).2)
      end
  end.

End Codec.

Module Recorder.

(** A subclass that keeps the instructions it is handed: the completion
    hook appends its arguments to a list of the object, and the default
    visitor does nothing (an opcode without a bound rule is taken to
    have no operand). *)
Definition log : Type := list (option Z * option string * list Z).

Definition cls : Overrides Z log :=
  {| _after_visit := fun opcode opcode_name args self =>
       (inr tt,
        mkVisitor (stream self) (_dispatch_table self) (_cur_opcode self)
          (_cur_opcode_name self) (_cur_args self)
          (user self ++ [(opcode, opcode_name, args)]));
     _default_visitor := fun _ _ self => (inr tt, self) |}.

Definition cfg : Codec.config := Codec.mkConfig true 4.

(** A fresh object of the subclass. *)
Definition new : Visitor Z log := (__init__ []).1.2.

End Recorder.

Module Rewinder.

(** A subclass whose completion hook rewinds the stream
    ([self.stream.seek(0)]) and whose default visitor does nothing. *)
Definition cls : Overrides Z unit :=
  {| _after_visit := fun opcode opcode_name args self =>
       (inr tt,
        set_stream
          ((fun s => mkStream (buf s) 0) <$> stream self) self);
     _default_visitor := fun _ _ self => (inr tt, self) |}.

(** A fresh object of the subclass. *)
Definition new : Visitor Z unit := (__init__ tt).1.2.

(** The object after one turn of the loop on the one-byte input
    DW_OP_dup: the hook has put the stream back at its start. *)
Definition rewound : Visitor Z unit :=
  mkVisitor (Some (mkStream [x12] 0)) (_dispatch_table new)
    (Some 0x12) (Some "DW_OP_dup") [] tt.

End Rewinder.

(** ** The assignments of the table construction *)

(** The assignments of [_generate_dynamic_values] over a list of indices. *)
Definition assign_all (prefix : string) (index_start value_start : Z)
    (indices : list Z) (map : gmap string Z) : gmap string Z :=
  fold_left
    (fun map index =>
       <[prefix +:+ str_of_int index := value_start + index - index_start]> map)
    indices map.

Definition families : list (string * Z) :=
  [ ("DW_OP_lit", 0x30); ("DW_OP_reg", 0x50); ("DW_OP_breg", 0x70) ].

(** A call of [_generate_dynamic_values] as the caller sees it. The body
    holds no [raise], and item assignment on a dict does not raise: the
    call returns, with the map mutated. *)
Definition call_generate_dynamic_values
    (map : gmap string Z) (prefix : string)
    (index_start index_end value_start : Z) : result (gmap string Z) :=
  inr (_generate_dynamic_values map prefix index_start index_end value_start).

(** The expansion would overwrite an entry that is already present. *)
Definition collides (map : gmap string Z) (prefix : string)
    (index_start index_end : Z) : Prop :=
  exists i, index_start <= i <= index_end /\
            is_Some (map !! (prefix +:+ str_of_int i)).


(** ** The dispatch table of an instance *)

(** The table [_init_dispatch_table] leaves in a fresh object. *)
Definition dispatch_table : gmap Z visitor_fn :=
  _dispatch_table (__init__ (value := unit) tt).1.2.

(** The opcode of [name] is bound to a struct rule on a base-128
    integer. *)
Definition leb128_rule (table : gmap Z visitor_fn) (name : string) : bool :=
  match DW_OP_name2opcode !! name with
  | Some opcode =>
      match table !! opcode with
      | Some (visitor_for_struct struct) => is_leb128 struct
      | _ => false
      end
  | None => false
  end.

(** [name] is a defined opcode without an entry in the table. *)
Definition unbound (table : gmap Z visitor_fn) (name : string) : bool :=
  match DW_OP_name2opcode !! name with
  | Some opcode =>
      match table !! opcode with
      | Some _ => false
      | None => true
      end
  | None => false
  end.

(** The opcodes with a base-128 operand that have a rule of their own. *)
Definition bound_leb128_ops : list string :=
  [ "DW_OP_constu"; "DW_OP_consts"; "DW_OP_plus_uconst" ]
  ++ ((fun i => "DW_OP_breg" +:+ str_of_int i) <$> range 0 32).

(** The opcodes with a base-128 operand that are left to the default
    visitor. *)
Definition unbound_leb128_ops : list string :=
  [ "DW_OP_regx"; "DW_OP_fbreg"; "DW_OP_bregx"; "DW_OP_piece" ].

(** ** Names and bytes *)

(** The keys a call of [_generate_dynamic_values] assigns. *)
Definition generated_names (prefix : string) (index_start index_end : Z)
  : list string :=
  (fun index => prefix +:+ str_of_int index)
    <$> range index_start (index_end + 1).

(** The three maps [DW_OP_name2opcode] goes through while the module
    loads: after [dict(...)], after the DW_OP_lit family and after the
    DW_OP_reg family. *)
Definition name2opcode_static : gmap string Z := dict_of DW_OP_static.
Definition name2opcode_lit : gmap string Z :=
  _generate_dynamic_values name2opcode_static "DW_OP_lit" 0 31 0x30.
Definition name2opcode_reg : gmap string Z :=
  _generate_dynamic_values name2opcode_lit "DW_OP_reg" 0 31 0x50.

(** The 256 one-character strings [read(1)] can return. *)
Definition all_bytes : list byte :=
  omap (fun n => Byte.of_N (N.of_nat n)) (seq 0 256).

(** The defined opcodes [_init_dispatch_table] binds no rule to. *)
Definition default_ops : list string :=
  [ "DW_OP_xor"; "DW_OP_regx"; "DW_OP_fbreg"; "DW_OP_bregx"; "DW_OP_piece";
    "DW_OP_deref_size"; "DW_OP_xderef_size"; "DW_OP_nop";
    "DW_OP_push_object_address"; "DW_OP_call2"; "DW_OP_call4";
    "DW_OP_call_ref"; "DW_OP_form_tls_address"; "DW_OP_call_frame_cfa";
    "DW_OP_bit_piece"; "DW_OP_implicit_value"; "DW_OP_stack_value";
    "DW_OP_GNU_push_tls_address"; "DW_OP_GNU_uninit";
    "DW_OP_GNU_encoded_addr"; "DW_OP_GNU_implicit_pointer";
    "DW_OP_GNU_entry_value"; "DW_OP_GNU_const_type";
    "DW_OP_GNU_regval_type"; "DW_OP_GNU_deref_type"; "DW_OP_GNU_convert";
    "DW_OP_GNU_reinterpret" ].

(** ** The operand rule of a turn *)

Section Rule.

Context {value U : Type}.
Variable struct_parse : Struct -> Stream -> result value * Stream.
Variable cls : Overrides value U.

(** The visitor the loop picks for an opcode, run on the object:
    [self._dispatch_table.get(opcode, self._default_visitor)] applied
    to the opcode and its name. *)
Definition run_rule (opcode : Z) (opcode_name : string)
    (self : Visitor value U) : result unit * Visitor value U :=
  match _dispatch_table self !! opcode with
  | Some f => (apply_visitor_fn struct_parse f opcode opcode_name self).1
  | None => _default_visitor cls opcode opcode_name self
  end.

(** Nothing is left to read from the stream of the object. *)
Definition exhausted (self : Visitor value U) : Prop :=
  match stream self with
  | Some s => (length (buf s) <= pos s)%nat
  | None => False
  end.

End Rule.

(** * Properties of the opcode tables *)

Section Tables.

Lemma to_int_not_nil z :
  Z.to_int z <> Decimal.Pos Decimal.Nil /\
  Z.to_int z <> Decimal.Neg Decimal.Nil.
Proof.
  rewrite <- (DecimalZ.of_to z) at 1 2. rewrite DecimalZ.to_of.
  destruct (Z.to_int z) as [d|d]; simpl.
  - split; [|discriminate]. unfold Decimal.unorm.
    destruct (Decimal.nzhead d); discriminate.
  - destruct (Decimal.nzhead d) eqn:E; split; discriminate.
Qed.

Lemma str_of_int_inj i j : str_of_int i = str_of_int j -> i = j.
Proof.
  unfold str_of_int. intros E.
  apply DecimalZ.to_int_inj.
  destruct (to_int_not_nil i) as [Hi1 Hi2].
  destruct (to_int_not_nil j) as [Hj1 Hj2].
  pose proof (NilZero.isi _ Hi1 Hi2) as Ei.
  pose proof (NilZero.isi _ Hj1 Hj2) as Ej.
  rewrite E in Ei. congruence.
Qed.

Lemma append_inj_r (p a b : string) : p +:+ a = p +:+ b -> a = b.
Proof. induction p as [|c p IH]; simpl; [done|]. intros [= E]. auto. Qed.

Lemma name_inj p i j : p +:+ str_of_int i = p +:+ str_of_int j -> i = j.
Proof. intros E. by apply str_of_int_inj, (append_inj_r p). Qed.

Lemma assign_all_cons p a v x l m :
  assign_all p a v (x :: l) m
  = assign_all p a v l (<[p +:+ str_of_int x := v + x - a]> m).
Proof. reflexivity. Qed.

Lemma assign_all_other p a v l m (k : string) :
  (forall i, i ∈ l -> k <> p +:+ str_of_int i) ->
  assign_all p a v l m !! k = m !! k.
Proof.
  revert m. induction l as [|x l IH]; intros m Hk; [done|].
  rewrite assign_all_cons, IH.
  - rewrite lookup_insert_ne; [done|]. intros E. eapply Hk; [left|done].
  - intros i Hi. apply Hk. by right.
Qed.

Lemma assign_all_index p a v l m i :
  NoDup l -> i ∈ l ->
  assign_all p a v l m !! (p +:+ str_of_int i) = Some (v + i - a).
Proof.
  revert m. induction l as [|x l IH]; intros m Hnd Hi.
  - by apply elem_of_nil in Hi.
  - apply NoDup_cons in Hnd as [Hx Hnd]. rewrite assign_all_cons.
    destruct (decide (i ∈ l)) as [Hil|Hil].
    + by apply IH.
    + apply elem_of_cons in Hi as [->|Hi]; [|done].
      rewrite assign_all_other.
      * by rewrite lookup_insert_eq.
      * intros j Hj E. apply name_inj in E. by subst.
Qed.

(** What a call of [_generate_dynamic_values] leaves in the map: the
    generated names hold the generated values, whatever was there
    before, and every other key is as it was. *)
Lemma generate_lookup_index map prefix index_start index_end value_start i :
  index_start <= i <= index_end ->
  _generate_dynamic_values map prefix index_start index_end value_start
    !! (prefix +:+ str_of_int i) = Some (value_start + i - index_start).
Proof.
  intros Hi. apply (assign_all_index prefix index_start value_start).
  - apply NoDup_seqZ.
  - apply elem_of_seqZ. lia.
Qed.

Lemma generate_lookup_other map prefix index_start index_end value_start
    (k : string) :
  (forall i, index_start <= i <= index_end -> k <> prefix +:+ str_of_int i) ->
  _generate_dynamic_values map prefix index_start index_end value_start !! k
  = map !! k.
Proof.
  intros Hk. apply (assign_all_other prefix index_start value_start).
  intros i Hi. apply Hk. apply elem_of_seqZ in Hi. lia.
Qed.

Lemma invert_fold_other (items : list (string * Z)) (m : gmap Z string) c :
  c ∉ items.*2 ->
  fold_left (fun m kv => <[kv.2 := kv.1]> m) items m !! c = m !! c.
Proof.
  revert m. induction items as [|[k v] items IH]; intros m Hc; [done|].
  rewrite fmap_cons, not_elem_of_cons in Hc. destruct Hc as [Hne Hc].
  cbn [fold_left]. rewrite IH by done. by rewrite lookup_insert_ne.
Qed.

Lemma invert_fold_elem (items : list (string * Z)) (m : gmap Z string) k c :
  NoDup items.*2 -> (k, c) ∈ items ->
  fold_left (fun m kv => <[kv.2 := kv.1]> m) items m !! c = Some k.
Proof.
  revert m. induction items as [|[k' v] items IH]; intros m Hnd Hin.
  - by apply elem_of_nil in Hin.
  - rewrite fmap_cons in Hnd. apply NoDup_cons in Hnd as [Hv Hnd].
    cbn [fold_left]. apply elem_of_cons in Hin as [[= -> ->]|Hin].
    + rewrite invert_fold_other by done. apply lookup_insert_eq.
    + by apply IH.
Qed.

(** Whatever order [iteritems] takes, a map without repeated values has
    one inverse. *)
Lemma invert_items_order (items items' : list (string * Z)) :
  NoDup items.*2 -> items' ≡ₚ items ->
  invert_items items' = invert_items items.
Proof.
  intros Hnd Hperm. apply map_eq. intros c. unfold invert_items.
  assert (NoDup items'.*2) as Hnd' by (by rewrite Hperm).
  destruct (decide (c ∈ items.*2)) as [Hc|Hc].
  - apply list_elem_of_fmap in Hc as ([k v] & -> & Hin).
    rewrite (invert_fold_elem items ∅ k v) by done.
    apply invert_fold_elem; [done|]. by rewrite Hperm.
  - rewrite !invert_fold_other; [done|done|]. by rewrite Hperm.
Qed.

Lemma name2opcode_values_NoDup : NoDup (map_to_list DW_OP_name2opcode).*2.
Proof. apply (bool_decide_unpack _). vm_compute. reflexivity. Qed.

(** X15. The code-to-name table does not depend on the order in which
    [iteritems()] yields the pairs of the name-to-code dict: built from
    the pairs in any order, the inverse is the same map. *)
Lemma opcode2name_order (items : list (string * Z)) :
  items ≡ₚ map_to_list DW_OP_name2opcode ->
  invert_items items = DW_OP_opcode2name.
Proof. apply invert_items_order, name2opcode_values_NoDup. Qed.

(** Both directions of the table, decided on the finite maps. *)
Lemma name2opcode_forall :
  map_Forall (fun name code => DW_OP_opcode2name !! code = Some name)
    DW_OP_name2opcode.
Proof. apply (bool_decide_unpack _). vm_compute. reflexivity. Qed.

Lemma opcode2name_forall :
  map_Forall (fun code name => DW_OP_name2opcode !! name = Some code)
    DW_OP_opcode2name.
Proof. apply (bool_decide_unpack _). vm_compute. reflexivity. Qed.

(** C2. The opcode table is a strict bijection: looking a name up and
    then its code back gives the name, looking a code up and then its
    name back gives the code, no two names share a code and no two codes
    share a name; the 96 generated names are part of both maps. *)
Theorem opcode_table_bijection :
  (forall name code,
      DW_OP_name2opcode !! name = Some code ->
      DW_OP_opcode2name !! code = Some name) /\
  (forall code name,
      DW_OP_opcode2name !! code = Some name ->
      DW_OP_name2opcode !! name = Some code) /\
  (forall n1 n2 code,
      DW_OP_name2opcode !! n1 = Some code ->
      DW_OP_name2opcode !! n2 = Some code -> n1 = n2) /\
  (forall c1 c2 name,
      DW_OP_opcode2name !! c1 = Some name ->
      DW_OP_opcode2name !! c2 = Some name -> c1 = c2) /\
  size DW_OP_name2opcode = 164%nat /\
  size DW_OP_opcode2name = 164%nat.
Proof.
  pose proof name2opcode_forall as F. pose proof opcode2name_forall as G.
  split_and!.
  - exact F.
  - exact G.
  - intros n1 n2 code H1 H2. apply F in H1, H2. congruence.
  - intros c1 c2 name H1 H2. apply G in H1, H2. congruence.
  - vm_compute. reflexivity.
  - vm_compute. reflexivity.
Qed.

Lemma opcode_table_bijection_witness :
  DW_OP_opcode2name !! 0x7f = Some "DW_OP_breg15" /\
  DW_OP_name2opcode !! "DW_OP_piece" = Some 0x93.
Proof.
  split.
  - apply (proj1 opcode_table_bijection). vm_compute. reflexivity.
  - apply (proj1 (proj2 opcode_table_bijection)). vm_compute. reflexivity.
Defined.

Lemma families_forall :
  Forall (fun fam =>
    Forall (fun i =>
      DW_OP_name2opcode !! (fam.1 +:+ str_of_int i) = Some (fam.2 + i))
      (seqZ 0 32))
    families.
Proof. apply (bool_decide_unpack _). vm_compute. reflexivity. Qed.

(** C6. For each generated family (DW_OP_lit from 0x30, DW_OP_reg from
    0x50, DW_OP_breg from 0x70) and every index i of 0..31, the name
    prefix + str(i) has exactly the code base + i. *)
Theorem family_codes (prefix : string) (base i : Z) :
  (prefix, base) ∈ families ->
  0 <= i <= 31 ->
  DW_OP_name2opcode !! (prefix +:+ str_of_int i) = Some (base + i).
Proof.
  intros Hfam Hi.
  pose proof families_forall as F.
  rewrite Forall_forall in F. specialize (F _ Hfam). simpl in F.
  rewrite Forall_forall in F. apply F. apply elem_of_seqZ. lia.
Qed.

Lemma family_codes_witness :
  DW_OP_name2opcode !! "DW_OP_breg31" = Some 0x8f.
Proof.
  apply (family_codes "DW_OP_breg" 0x70 31).
  - unfold families. do 2 right. left.
  - lia.
Defined.

(** C4, as stated, fails: on a map that already holds DW_OP_lit0, the
    expansion of the DW_OP_lit family returns normally and the entry is
    replaced. *)
Lemma generate_collision_is_silent :
  ~ (forall map prefix index_start index_end value_start,
        collides map prefix index_start index_end ->
        exists e,
          call_generate_dynamic_values
            map prefix index_start index_end value_start = inl e).
Proof.
  intros H.
  destruct (H {[ "DW_OP_lit0" := 0x99 ]} "DW_OP_lit" 0 31 0x30) as [e He].
  - exists 0. split; [lia|]. by eexists.
  - discriminate He.
Qed.

(** C4, amended. For every map and family parameters the call returns
    normally; afterwards every generated name holds its generated code,
    whether or not the name was present before (an existing entry is
    replaced), and every other key is untouched. *)
Theorem generate_overwrites map prefix index_start index_end value_start :
  exists map',
    call_generate_dynamic_values
      map prefix index_start index_end value_start = inr map' /\
    (forall i, index_start <= i <= index_end ->
       map' !! (prefix +:+ str_of_int i)
       = Some (value_start + i - index_start)) /\
    (forall k : string,
       (forall i, index_start <= i <= index_end ->
          k <> prefix +:+ str_of_int i) ->
       map' !! k = map !! k).
Proof.
  eexists. split; [reflexivity|]. split.
  - intros i Hi. by apply generate_lookup_index.
  - intros k Hk. by apply generate_lookup_other.
Qed.

End Tables.

(** * Properties of the decode loop *)

Section Loop.

Context {value U : Type}.
Variable struct_parse : Struct -> Stream -> result value * Stream.
Variable cls : Overrides value U.

Local Abbreviation Visitor := (Visitor value U).
Local Abbreviation loop_body := (loop_body struct_parse cls).
Local Abbreviation process_loop := (process_loop struct_parse cls).
Local Abbreviation process_expr := (process_expr struct_parse cls).
Local Abbreviation instructions := (instructions struct_parse cls).
Local Abbreviation rule_returns := (rule_returns struct_parse cls).

Lemma bytelist2string_length l data :
  bytelist2string l = inr data -> length data = length l.
Proof.
  revert data. induction l as [|b l IH]; intros data; simpl.
  - by intros [= <-].
  - case_bool_decide; [|discriminate].
    destruct (Byte.of_N (Z.to_N b)); [|discriminate].
    destruct (bytelist2string l); [discriminate|].
    intros [= <-]. simpl. f_equal. by apply IH.
Qed.

Lemma bytelist2string_bytes l :
  Forall (fun b => 0 <= b < 256) l ->
  exists data, bytelist2string l = inr data /\ ord <$> data = l.
Proof.
  induction 1 as [|b l Hb Hl (data & IH & Hord)]; simpl.
  - by exists [].
  - rewrite bool_decide_eq_true_2 by done. rewrite IH.
    destruct (Byte.of_N (Z.to_N b)) as [c|] eqn:Ec.
    + exists (c :: data). split; [done|]. simpl. f_equal; [|done].
      unfold ord. apply Byte.to_of_N in Ec. rewrite Ec. lia.
    + apply Byte.of_N_None_iff in Ec. lia.
Qed.

Local Opaque DW_OP_opcode2name DW_OP_name2opcode ord.

Ltac run_M :=
  unfold apply_visitor_fn, _visit_OP_with_no_args;
  unfold bind, modify, get, ret, raise, emit, call_method, struct_visitor;
  simpl.

Lemma read_byte s b :
  buf s !! pos s = Some b ->
  read 1 s = ([b], mkStream (buf s) (pos s + 1)).
Proof.
  intros Hb. unfold read.
  rewrite (drop_S _ _ _ Hb). reflexivity.
Qed.

Lemma read_at_end n s :
  (length (buf s) <= pos s)%nat ->
  read n s = ([], mkStream (buf s) (pos s + 0)).
Proof.
  intros Hle. unfold read. rewrite drop_ge by done.
  by rewrite take_nil.
Qed.

(** The loop leaves through [break] when nothing is left to read. *)
Lemma loop_body_exhausted (self : Visitor) s :
  stream self = Some s ->
  (length (buf s) <= pos s)%nat ->
  loop_body self
  = (inr false, set_stream (Some (mkStream (buf s) (pos s + 0))) self, []).
Proof.
  intros Hs Hle. unfold loop_body, bind, stream_read.
  rewrite Hs, (read_at_end 1 s Hle). reflexivity.
Qed.

(** A byte without a name: [DW_OP_opcode2name[...]] raises, after the
    byte was read and stored, and before any visitor or hook is called. *)
Lemma loop_body_unknown (self : Visitor) s b :
  stream self = Some s ->
  buf s !! pos s = Some b ->
  DW_OP_opcode2name !! ord b = None ->
  loop_body self
  = (inl (KeyError (KInt (ord b))),
     set_cur_opcode (Some (ord b))
       (set_stream (Some (mkStream (buf s) (pos s + 1))) self),
     []).
Proof.
  intros Hs Hb Hname. unfold loop_body, bind, stream_read.
  rewrite Hs, (read_byte s b Hb). run_M. rewrite Hname. reflexivity.
Qed.

(** One instruction at the position: one turn of the loop, which calls
    the opcode's rule and then the completion hook, once each. *)
Lemma loop_body_instruction (self : Visitor) s b opcode_name self1 self2 :
  stream self = Some s ->
  buf s !! pos s = Some b ->
  DW_OP_opcode2name !! ord b = Some opcode_name ->
  rule_returns (ord b) opcode_name (opcode_read b opcode_name s self) self1 ->
  _after_visit cls (Some (ord b)) (Some opcode_name) (_cur_args self1) self1
  = (inr tt, self2) ->
  loop_body self
  = (inr true, self2,
     [rule_call self (ord b) opcode_name;
      After_visit (Some (ord b)) (Some opcode_name) (_cur_args self1)]).
Proof.
  intros Hs Hb Hname Hrule Hhook. unfold loop_body, bind, stream_read.
  rewrite Hs, (read_byte s b Hb). run_M. rewrite Hname. run_M.
  unfold rule_call. unfold opcode_read in Hrule.
  inversion Hrule as [Ht|struct s0 v s1 Ht Hs0 Hparse|self1' Ht Hdef Hop Hnm];
    simpl in Ht; rewrite Ht; subst; run_M.
  - simpl in Hhook. by rewrite Hhook.
  - simpl in Hs0. injection Hs0 as <-. rewrite Hparse. simpl.
    simpl in Hhook. by rewrite Hhook.
  - rewrite Hdef. simpl in Hop, Hnm. rewrite Hop, Hnm, Hhook. reflexivity.
Qed.

Lemma completion_calls_app (t1 t2 : list (call value)) :
  completion_calls (t1 ++ t2) = completion_calls t1 ++ completion_calls t2.
Proof.
  induction t1 as [|c t1 IH]; [done|].
  destruct c; simpl; by rewrite ?IH.
Qed.

Lemma completion_calls_rule_call (self : Visitor) opcode opcode_name t :
  completion_calls (rule_call self opcode opcode_name :: t)
  = completion_calls t.
Proof. unfold rule_call. by destruct (_dispatch_table self !! opcode). Qed.


Lemma process_loop_S (self : Visitor) fuel :
  process_loop (S fuel) self
  = match loop_body self with
    | (inl e, self1, t1) => Some (inl e, self1, t1)
    | (inr false, self1, t1) => Some (inr tt, self1, t1)
    | (inr true, self1, t1) =>
        match process_loop fuel self1 with
        | None => None
        | Some (r, self2, t2) => Some (r, self2, t1 ++ t2)
        end
    end.
Proof. reflexivity. Qed.

(** The loop over a run of instructions: one turn each, and then the
    loop goes on from the object they leave. *)
Lemma process_loop_instructions (self self' : Visitor) instrs :
  instructions self instrs self' ->
  exists t1,
    completion_calls t1 = hook_args <$> instrs /\
    length t1 = (2 * length instrs)%nat /\
    forall fuel,
      process_loop (length instrs + fuel) self
      = match process_loop fuel self' with
        | None => None
        | Some (r, self2, t2) => Some (r, self2, t1 ++ t2)
        end.
Proof.
  induction 1 as [self|self s0 b nm self1 s1 k self2 rest self'
                    Hs Hb Hnm Hrule Hs1 Hbuf Hpos Hhook Hs2 Hrest IH].
  - exists []. split_and!; [done|done|]. intros fuel.
    change (length [] + fuel)%nat with fuel.
    by destruct (process_loop fuel self) as [[[r v] t]|].
  - destruct IH as (t1 & Hcalls & Hlen & Hloop).
    exists ([rule_call self (ord b) nm;
             After_visit (Some (ord b)) (Some nm) (_cur_args self1)] ++ t1).
    split_and!.
    + rewrite completion_calls_app, completion_calls_rule_call.
      cbn [completion_calls fmap list_fmap app]. rewrite Hcalls.
      reflexivity.
    + rewrite length_app, Hlen. cbn [length]. lia.
    + intros fuel.
      change (length (?i :: rest) + fuel)%nat
        with (S (length rest + fuel)).
      rewrite process_loop_S.
      rewrite (loop_body_instruction self s0 b nm self1 self2
                 Hs Hb Hnm Hrule Hhook).
      rewrite Hloop.
      destruct (process_loop fuel self') as [[[r v] t]|]; [|reflexivity].
      by rewrite <- app_assoc.
Qed.

Lemma process_expr_bound expr (self0 self : Visitor) fuel :
  bind_stream expr self0 = (inr tt, self, []) ->
  process_expr fuel expr self0 = process_loop fuel self.
Proof.
  intros Hbind. unfold process_expr. rewrite Hbind.
  by destruct (process_loop fuel self) as [[[r v] t]|].
Qed.

Lemma bind_stream_length expr (self0 self : Visitor) t :
  bind_stream expr self0 = (inr tt, self, t) ->
  bytes_left self = input_length expr.
Proof.
  destruct expr as [s|l]; simpl.
  - intros [= <- <-]. reflexivity.
  - destruct (bytelist2string l) as [e|data] eqn:E; [discriminate|].
    intros [= <- <-]. unfold bytes_left, remaining. simpl.
    rewrite (bytelist2string_length _ _ E). lia.
Qed.


(** C5. When the byte read as an opcode has no entry in the
    code-to-name table, the lookup raises [KeyError] and the loop stops
    there: [process_expr] raises it to its caller, and neither a visitor
    nor the completion hook is called for that byte. The completion
    calls of the run are those of the instructions before it. *)
Theorem process_expr_unknown_opcode
    expr (self0 self self' : Visitor) instrs s b fuel :
  bind_stream expr self0 = (inr tt, self, []) ->
  instructions self instrs self' ->
  stream self' = Some s ->
  buf s !! pos s = Some b ->
  DW_OP_opcode2name !! ord b = None ->
  (length instrs < fuel)%nat ->
  exists selfN t,
    process_expr fuel expr self0
    = Some (inl (KeyError (KInt (ord b))), selfN, t) /\
    completion_calls t = hook_args <$> instrs /\
    length t = (2 * length instrs)%nat /\
    loop_body self' = (inl (KeyError (KInt (ord b))), selfN, []).
Proof.
  intros Hbind Hinstrs Hs Hb Hname Hfuel.
  destruct (process_loop_instructions _ _ _ Hinstrs)
    as (t1 & Hcalls & Hlen & Hloop).
  destruct fuel as [|fuel]; [lia|].
  replace (S fuel) with (length instrs + S (fuel - length instrs))%nat
    by lia.
  rewrite (process_expr_bound _ _ _ _ Hbind), Hloop.
  rewrite process_loop_S.
  rewrite (loop_body_unknown self' s b Hs Hb Hname).
  eexists _, _. split; [reflexivity|].
  rewrite app_nil_r. by split_and!.
Qed.

(** C7. For a list of byte values, [bytelist2string] gives the string
    with the same bytes, and [process_expr] on the list is the same run
    (same result, same object afterwards, same calls with the same
    opcodes, names and operands) as [process_expr] on a stream over
    that string, positioned at its start. *)
Theorem process_expr_bytelist_stream fuel (l : list Z) (self : Visitor) :
  Forall (fun b => 0 <= b < 256) l ->
  exists data,
    bytelist2string l = inr data /\
    ord <$> data = l /\
    process_expr fuel (ByteList l) self
    = process_expr fuel (StreamObj (StringIO data)) self.
Proof.
  intros Hl. destruct (bytelist2string_bytes l Hl) as (data & Hdata & Hord).
  exists data. split_and!; [done|done|].
  unfold process_expr, bind_stream. rewrite Hdata. reflexivity.
Qed.

(** C10. The loop never resets [_cur_args]. When the opcode has no bound
    rule and the default visitor returns leaving [_cur_args] as it
    found it, the completion hook is called with the list the object
    held when this turn of the loop began. Only the bound rules assign
    the field: the no-operand rule the empty list, a struct rule the
    one decoded value. The list at the start of a turn is the operand
    list of the instruction before (when the hook leaves the field
    alone), and the empty list on a fresh object. *)
Theorem default_visit_keeps_cur_args :
  (forall (self self1 : Visitor) s b nm,
     stream self = Some s ->
     buf s !! pos s = Some b ->
     DW_OP_opcode2name !! ord b = Some nm ->
     _dispatch_table self !! ord b = None ->
     _default_visitor cls (ord b) nm (opcode_read b nm s self)
     = (inr tt, self1) ->
     _cur_args self1 = _cur_args (opcode_read b nm s self) ->
     exists r self2,
       loop_body self
       = (r, self2,
          [Default_visit (ord b) nm;
           After_visit (_cur_opcode self1) (_cur_opcode_name self1)
             (_cur_args self)])) /\
  (forall f opcode nm (self self1 : Visitor) t,
     apply_visitor_fn struct_parse f opcode nm self = (inr tt, self1, t) ->
     match f with
     | visit_OP_with_no_args => _cur_args self1 = []
     | visitor_for_struct _ => exists v, _cur_args self1 = [v]
     end) /\
  (forall (self0 self : Visitor) i,
     (forall o n a v, _cur_args (_after_visit cls o n a v).2 = _cur_args v) ->
     instructions self0 [i] self ->
     _cur_args self = i_args i) /\
  (forall u : U, _cur_args (__init__ (value := value) u).1.2 = []).
Proof.
  split_and!.
  - intros self self1 s b nm Hs Hb Hnm Htable Hdef Hargs.
    unfold loop_body, bind, stream_read.
    rewrite Hs, (read_byte s b Hb). run_M. rewrite Hnm. run_M.
    rewrite Htable. unfold opcode_read in Hdef, Hargs. rewrite Hdef.
    simpl in Hargs. rewrite Hargs.
    destruct (_after_visit cls (_cur_opcode self1) (_cur_opcode_name self1)
                (_cur_args self) self1) as [[e|[]] self2];
      eexists _, _; reflexivity.
  - intros f opcode nm self self1 t. destruct f as [|struct]; run_M.
    + by intros [= <- <-].
    + destruct (stream self) as [s|]; [|discriminate].
      destruct (struct_parse struct s) as [[e|v] s1]; [discriminate|].
      intros [= <- <-]. by exists v.
  - intros self0 self i Hhook Hinstrs.
    inversion Hinstrs as [|? s0 b nm self1 s1 k self2 rest ?
                            Hs Hb Hnm Hrule Hs1 Hbuf Hpos Hcall Hs2 Hrest];
      subst.
    inversion Hrest; subst. simpl.
    rewrite <- (Hhook (Some (ord b)) (Some nm) (_cur_args self1) self1).
    by rewrite Hcall.
  - intros u. vm_compute. reflexivity.
Qed.

Section Termination.

(** The codec and the subclass's methods only move the stream forward:
    none leaves more bytes to read than it found. *)
Hypothesis codec_advances :
  forall struct s, (remaining (struct_parse struct s).2 <= remaining s)%nat.
Hypothesis default_visitor_advances :
  forall opcode nm (self : Visitor),
    (bytes_left (_default_visitor cls opcode nm self).2
     <= bytes_left self)%nat.
Hypothesis after_visit_advances :
  forall opcode nm args (self : Visitor),
    (bytes_left (_after_visit cls opcode nm args self).2
     <= bytes_left self)%nat.

Lemma bind_inr {A B} (m : M A) (f : A -> M B) (self self2 : Visitor) b t :
  bind m f self = (inr b, self2, t) ->
  exists a self1 t1 t2,
    m self = (inr a, self1, t1) /\ f a self1 = (inr b, self2, t2) /\
    t = t1 ++ t2.
Proof.
  unfold bind. destruct (m self) as [[[e|a] self1] t1]; [discriminate|].
  destruct (f a self1) as [[r self3] t2] eqn:Hf.
  intros [= -> <- <-]. by exists a, self1, t1, t2.
Qed.

Lemma stream_read_decreases (self self1 : Visitor) b rest t :
  stream_read 1 self = (inr (b :: rest), self1, t) ->
  (bytes_left self1 < bytes_left self)%nat.
Proof.
  unfold stream_read, bytes_left.
  destruct (stream self) as [s|]; [|discriminate].
  destruct (buf s !! pos s) as [c|] eqn:Hc.
  - rewrite (read_byte s c Hc). intros [= _ _ <-]. simpl.
    apply lookup_lt_Some in Hc. unfold remaining. simpl. lia.
  - apply lookup_ge_None in Hc. rewrite (read_at_end 1 s Hc). discriminate.
Qed.

Lemma apply_visitor_fn_advances f opcode nm (self self1 : Visitor) r t :
  apply_visitor_fn struct_parse f opcode nm self = (r, self1, t) ->
  (bytes_left self1 <= bytes_left self)%nat.
Proof.
  destruct f as [|struct]; run_M.
  - by intros [= _ <- _].
  - unfold bytes_left. destruct (stream self) as [s|] eqn:Hs.
    + pose proof (codec_advances struct s) as Hle.
      destruct (struct_parse struct s) as [[e|v] s1];
        intros [= _ <- _]; simpl in *; lia.
    + intros [= _ <- _]. by rewrite Hs.
Qed.

Lemma call_method_advances c body (self self1 : Visitor) r t :
  (forall v : Visitor, (bytes_left (body v).2 <= bytes_left v)%nat) ->
  call_method c body self = (r, self1, t) ->
  (bytes_left self1 <= bytes_left self)%nat.
Proof.
  intros Hbody. unfold call_method. specialize (Hbody self).
  destruct (body self) as [r1 v1]. by intros [= _ <- _].
Qed.

(** A turn of the loop that goes on to the next has consumed at least
    the opcode byte. *)
Lemma loop_body_decreases (self self1 : Visitor) t :
  loop_body self = (inr true, self1, t) ->
  (bytes_left self1 < bytes_left self)%nat.
Proof.
  unfold loop_body. intros H.
  apply bind_inr in H as (byte & v1 & t1 & t2 & Hread & H & ->).
  destruct byte as [|b rest]; [discriminate|].
  apply stream_read_decreases in Hread.
  apply bind_inr in H as ([] & v2 & ? & ? & [= <- <-] & H & ->).
  destruct (DW_OP_opcode2name !! ord b) as [nm|]; [|discriminate].
  apply bind_inr in H as ([] & v3 & ? & ? & [= <- <-] & H & ->).
  apply bind_inr in H as (table & v4 & ? & ? & [= <- <- <-] & H & ->).
  apply bind_inr in H as ([] & v5 & ? & ? & Hrule & H & ->).
  apply bind_inr in H as (o & v6 & ? & ? & [= <- <- <-] & H & ->).
  apply bind_inr in H as (n & v7 & ? & ? & [= <- <- <-] & H & ->).
  apply bind_inr in H as (a & v8 & ? & ? & [= <- <- <-] & H & ->).
  apply bind_inr in H as ([] & v9 & ? & ? & Hhook & [= <- <-] & ->).
  apply call_method_advances in Hhook; [|apply after_visit_advances].
  assert (bytes_left v5 <= bytes_left v1)%nat as Hle.
  { simpl in Hrule. destruct (_dispatch_table v1 !! ord b) as [f|].
    - by apply apply_visitor_fn_advances in Hrule.
    - apply call_method_advances in Hrule;
        [done|apply default_visitor_advances]. }
  lia.
Qed.

Lemma process_loop_terminates fuel (self : Visitor) :
  (bytes_left self < fuel)%nat -> is_Some (process_loop fuel self).
Proof.
  revert self. induction fuel as [|fuel IH]; intros self Hlt; [lia|].
  rewrite process_loop_S.
  destruct (loop_body self) as [[[e|[|]] self1] t] eqn:Hbody; [done| |done].
  apply loop_body_decreases in Hbody.
  destruct (IH self1) as [[[r v] t2] ->]; [lia|done].
Qed.

(** C9, amended. On a finite input [process_expr] terminates provided
    the operand rules (the codec and the default visitor) and the
    completion hook never move the stream backwards: a turn of the
    loop that does not leave it then consumes at least the opcode byte,
    so the bytes left strictly decrease, and with more turns allowed
    than the input has bytes the loop has exited (by exhaustion or by
    an exception). *)
Theorem process_expr_terminates :
  (forall (self self1 : Visitor) t,
     loop_body self = (inr true, self1, t) ->
     (bytes_left self1 < bytes_left self)%nat) /\
  (forall fuel expr (self : Visitor),
     (input_length expr < fuel)%nat ->
     is_Some (process_expr fuel expr self)).
Proof.
  split; [apply loop_body_decreases|].
  intros fuel expr self Hfuel. unfold process_expr.
  destruct (bind_stream expr self) as [[[e|[]] self1] t] eqn:Hbind; [done|].
  apply bind_stream_length in Hbind.
  destruct (process_loop_terminates fuel self1) as [[[r v] t2] ->];
    [lia|done].
Qed.

End Termination.

End Loop.

(** * The dispatch table and the base class *)

Section Dispatch.

Context {value U : Type}.
Variable struct_parse : Struct -> Stream -> result value * Stream.

Local Abbreviation Visitor := (Visitor value U).

Lemma init_dispatch_table (u : U) :
  __init__ (value := value) u
  = (inr tt, mkVisitor None dispatch_table None None [] u, []).
Proof. vm_compute. reflexivity. Qed.

(** C3, as stated, fails: the table has no entry for DW_OP_regx (nor for
    DW_OP_fbreg, DW_OP_bregx, DW_OP_piece). *)
Lemma regx_has_no_rule :
  ~ (forall name,
       name ∈ [ "DW_OP_constu"; "DW_OP_consts"; "DW_OP_plus_uconst";
                "DW_OP_regx"; "DW_OP_fbreg"; "DW_OP_bregx"; "DW_OP_piece" ] ->
       leb128_rule (_dispatch_table (__init__ (value := unit) tt).1.2) name
       = true).
Proof.
  intros H. specialize (H "DW_OP_regx").
  assert (leb128_rule (_dispatch_table (__init__ (value := unit) tt).1.2)
            "DW_OP_regx" = false) as E by (vm_compute; reflexivity).
  rewrite H in E; [discriminate|]. do 3 right. left.
Qed.

Local Opaque DW_OP_opcode2name DW_OP_name2opcode ord.

(** C3, amended. In the table [_init_dispatch_table] builds,
    DW_OP_constu, DW_OP_consts, DW_OP_plus_uconst and DW_OP_breg0..31
    each have an entry of their own, a struct rule on the ULEB128 or
    SLEB128 struct, which hands the stream to the codec and makes the
    one value it decodes the operand list; DW_OP_regx, DW_OP_fbreg,
    DW_OP_bregx and DW_OP_piece are defined opcodes without an entry,
    for which the loop calls the default visitor. *)
Theorem leb128_dispatch (cls : Overrides value U) (u : U) :
  let table := _dispatch_table (__init__ (value := value) u).1.2 in
  Forall (fun name => leb128_rule table name = true) bound_leb128_ops /\
  Forall (fun name => unbound table name = true) unbound_leb128_ops /\
  (forall struct opcode nm (self : Visitor) s v s1,
     stream self = Some s ->
     struct_parse struct s = (inr v, s1) ->
     apply_visitor_fn struct_parse (visitor_for_struct struct) opcode nm self
     = (inr tt, set_cur_args [v] (set_stream (Some s1) self),
        [Visit (visitor_for_struct struct) opcode nm])) /\
  (forall (self : Visitor) s b nm,
     stream self = Some s ->
     buf s !! pos s = Some b ->
     DW_OP_opcode2name !! ord b = Some nm ->
     _dispatch_table self !! ord b = None ->
     exists r self' t,
       loop_body struct_parse cls self
       = (r, self', Default_visit (ord b) nm :: t)).
Proof.
  rewrite init_dispatch_table. cbn [fst snd _dispatch_table].
  split_and!.
  - apply (bool_decide_unpack _). vm_compute. reflexivity.
  - apply (bool_decide_unpack _). vm_compute. reflexivity.
  - intros struct opcode nm self s v s1 Hs Hparse.
    unfold apply_visitor_fn, bind, emit, struct_visitor.
    rewrite Hs, Hparse. reflexivity.
  - intros self s b nm Hs Hb Hnm Htable.
    unfold loop_body, bind, stream_read.
    rewrite Hs, (read_byte s b Hb). simpl. rewrite Hnm. simpl.
    rewrite Htable.
    unfold call_method.
    destruct (_default_visitor cls (ord b) nm _) as [[e|[]] v1]; simpl.
    + by eexists _, _, _.
    + unfold get, ret.
      destruct (_after_visit cls _ _ _ v1) as [[e|[]] v2];
        by eexists _, _, _.
Qed.

(** C8. With the two methods of the base class itself, the default
    visitor and the completion hook raise [NotImplementedError], and
    the loop lets it through: on a defined opcode [process_expr] ends
    with an exception at the first instruction. It is
    [NotImplementedError] from the default visitor when the opcode has
    no bound rule, [NotImplementedError] from the completion hook when
    the bound rule returned, and otherwise the codec's own error from
    the bound rule. *)
Theorem base_class_not_implemented
    expr (self0 self : Visitor) s b nm fuel :
  bind_stream expr self0 = (inr tt, self, []) ->
  stream self = Some s ->
  buf s !! pos s = Some b ->
  DW_OP_opcode2name !! ord b = Some nm ->
  (forall opcode name (v : Visitor),
     _default_visitor GenericLocationExprVisitor opcode name v
     = (inl NotImplementedError, v)) /\
  (forall opcode name args (v : Visitor),
     _after_visit GenericLocationExprVisitor opcode name args v
     = (inl NotImplementedError, v)) /\
  exists e selfN t,
    process_expr struct_parse GenericLocationExprVisitor (S fuel) expr self0
    = Some (inl e, selfN, t) /\
    ((_dispatch_table self !! ord b = None /\
      e = NotImplementedError /\
      t = [Default_visit (ord b) nm]) \/
     (exists f,
        _dispatch_table self !! ord b = Some f /\
        e = NotImplementedError /\
        t = [Visit f (ord b) nm;
             After_visit (Some (ord b)) (Some nm) (_cur_args selfN)]) \/
     (exists struct s1,
        _dispatch_table self !! ord b = Some (visitor_for_struct struct) /\
        struct_parse struct (mkStream (buf s) (pos s + 1)) = (inl e, s1) /\
        t = [Visit (visitor_for_struct struct) (ord b) nm])).
Proof.
  intros Hbind Hs Hb Hnm. split_and!; [done|done|].
  unfold process_expr. rewrite Hbind.
  cbn [process_loop]. unfold loop_body, bind, stream_read.
  rewrite Hs, (read_byte s b Hb). simpl. rewrite Hnm. simpl.
  destruct (_dispatch_table self !! ord b) as [[|struct]|] eqn:Htable.
  - simpl. eexists _, _, _. split; [reflexivity|].
    right. left. eexists. split_and!; reflexivity.
  - unfold apply_visitor_fn, bind, emit, struct_visitor. simpl.
    destruct (struct_parse struct _) as [[e|v] s1] eqn:Hparse; simpl.
    + eexists _, _, _. split; [reflexivity|].
      right. right. exists struct, s1. split_and!; done.
    + eexists _, _, _. split; [reflexivity|].
      right. left. eexists. split_and!; reflexivity.
  - simpl. eexists _, _, _. split; [reflexivity|].
    left. split_and!; reflexivity.
Qed.

End Dispatch.

(** * Runs on concrete inputs *)

Section Runs.

Lemma read_advances n s : (remaining (read n s).2 <= remaining s)%nat.
Proof. unfold read, remaining. simpl. lia. Qed.

Lemma codec_struct_parse_advances cfg struct s :
  (remaining (Codec.struct_parse cfg struct s).2 <= remaining s)%nat.
Proof.
  unfold Codec.struct_parse.
  destruct (Codec.width cfg struct) as [w|].
  - pose proof (read_advances w s) as H.
    destruct (read w s) as [data s1]. by case_bool_decide.
  - destruct (Codec.leb128_length _) as [n|].
    + pose proof (read_advances n s) as H. by destruct (read n s).
    + apply read_advances.
Qed.

Lemma recorder_default_visitor_advances opcode nm
    (self : Visitor Z Recorder.log) :
  (bytes_left (_default_visitor Recorder.cls opcode nm self).2
   <= bytes_left self)%nat.
Proof. reflexivity. Qed.

Lemma recorder_after_visit_advances opcode nm args
    (self : Visitor Z Recorder.log) :
  (bytes_left (_after_visit Recorder.cls opcode nm args self).2
   <= bytes_left self)%nat.
Proof. reflexivity. Qed.

Local Abbreviation run :=
  (process_expr (Codec.struct_parse Recorder.cfg) Recorder.cls).
Local Abbreviation decoded :=
  (instructions (Codec.struct_parse Recorder.cfg) Recorder.cls).


Ltac bound_no_args_instr :=
  eapply instructions_cons;
  [ reflexivity | reflexivity | vm_compute; reflexivity
  | eapply rule_no_args; vm_compute; reflexivity
  | reflexivity | reflexivity | reflexivity | reflexivity | reflexivity | ].


(** DW_OP_dup, then a byte that is no opcode. *)
Lemma dup_decoded :
  exists instrs self',
    decoded (set_stream (Some (StringIO [x12; x00])) Recorder.new)
      instrs self' /\
    stream self' = Some (mkStream [x12; x00] 1) /\
    hook_args <$> instrs = [ (Some 0x12, Some "DW_OP_dup", []) ].
Proof.
  eexists _, _. split.
  - bound_no_args_instr. apply instructions_nil.
  - split_and!; vm_compute; reflexivity.
Qed.

(** A longer run of the recording subclass: the operands of
    DW_OP_nop and DW_OP_regx, which have no bound rule, are those of
    the instruction before. *)
Example run_mixed :
  (fun o => (fun '(r, self, t) => (r, user self)) <$> o)
    (run 10%nat (ByteList [0x08; 0x2a; 0x96; 0x12; 0x11; 0xff; 0x7e; 0x90])
       Recorder.new)
  = Some (inr tt,
          [ (Some 0x08, Some "DW_OP_const1u", [42]);
            (Some 0x96, Some "DW_OP_nop", [42]);
            (Some 0x12, Some "DW_OP_dup", []);
            (Some 0x11, Some "DW_OP_consts", [-129]);
            (Some 0x90, Some "DW_OP_regx", [-129]) ]).
Proof. vm_compute. reflexivity. Qed.

(** An operand cut short: the codec's error comes out of the loop, and
    the completion hook is not called. *)
Example run_underrun :
  (fun o => (fun '(r, self, t) => (r, t)) <$> o)
    (run 10%nat (ByteList [0x0a; 0x01]) Recorder.new)
  = Some (inl ELFParseError,
          [ Visit (visitor_for_struct Dwarf_uint16) 0x0a "DW_OP_const2u" ]).
Proof. vm_compute. reflexivity. Qed.

(** A list that holds a value that is no byte value. *)
Example run_not_a_byte :
  (fun o => (fun '(r, self, t) => (r, t)) <$> o)
    (run 10%nat (ByteList [0x12; 300]) Recorder.new)
  = Some (inl ValueError, []).
Proof. vm_compute. reflexivity. Qed.


Lemma process_expr_unknown_opcode_witness :
  exists selfN t,
    run 2%nat (ByteList [0x12; 0x00]) Recorder.new
    = Some (inl (KeyError (KInt 0)), selfN, t) /\
    completion_calls t = [ (Some 0x12, Some "DW_OP_dup", []) ].
Proof.
  destruct dup_decoded as (instrs & self' & Hdec & Hs & Hargs).
  assert (length instrs < 2)%nat as Hlt.
  { apply (f_equal length) in Hargs. rewrite length_fmap in Hargs.
    simpl in Hargs. lia. }
  destruct (process_expr_unknown_opcode
              (Codec.struct_parse Recorder.cfg) Recorder.cls
              (ByteList [0x12; 0x00]) Recorder.new _ self' instrs
              (mkStream [x12; x00] 1) x00 2%nat
              eq_refl Hdec Hs eq_refl ltac:(vm_compute; reflexivity) Hlt)
    as (selfN & t & Hrun & Hcalls & _ & _).
  exists selfN, t. split; [exact Hrun|congruence].
Defined.

Lemma process_expr_bytelist_stream_witness :
  exists data,
    bytelist2string [0x08; 0x2a; 0x12] = inr data /\
    ord <$> data = [0x08; 0x2a; 0x12] /\
    run 3%nat (ByteList [0x08; 0x2a; 0x12]) Recorder.new
    = run 3%nat (StreamObj (StringIO data)) Recorder.new.
Proof.
  apply (process_expr_bytelist_stream
           (Codec.struct_parse Recorder.cfg) Recorder.cls).
  repeat constructor; lia.
Defined.

(** DW_OP_nop has no bound rule: the hook of the recording subclass is
    handed the [42] that DW_OP_const1u left behind. *)
Lemma default_visit_keeps_cur_args_witness :
  exists r self2,
    loop_body (Codec.struct_parse Recorder.cfg) Recorder.cls
      (set_cur_args [42]
         (set_stream (Some (mkStream [x08; x2a; x96] 2)) Recorder.new))
    = (r, self2,
       [ Default_visit 0x96 "DW_OP_nop";
         After_visit (Some 0x96) (Some "DW_OP_nop") [42] ]).
Proof.
  apply (proj1 (default_visit_keeps_cur_args
                  (Codec.struct_parse Recorder.cfg) Recorder.cls)
           (set_cur_args [42]
              (set_stream (Some (mkStream [x08; x2a; x96] 2)) Recorder.new))
           (opcode_read x96 "DW_OP_nop" (mkStream [x08; x2a; x96] 2)
              (set_cur_args [42]
                 (set_stream (Some (mkStream [x08; x2a; x96] 2))
                    Recorder.new)))
           (mkStream [x08; x2a; x96] 2) x96 "DW_OP_nop").
  - reflexivity.
  - reflexivity.
  - vm_compute. reflexivity.
  - vm_compute. reflexivity.
  - reflexivity.
  - reflexivity.
Defined.

Lemma process_expr_terminates_witness :
  is_Some (run 4%nat (ByteList [0x08; 0x2a; 0x12]) Recorder.new).
Proof.
  apply (proj2 (process_expr_terminates
                  (Codec.struct_parse Recorder.cfg) Recorder.cls
                  (codec_struct_parse_advances Recorder.cfg)
                  recorder_default_visitor_advances
                  recorder_after_visit_advances)).
  simpl. lia.
Defined.

Lemma base_class_not_implemented_witness :
  exists selfN,
    process_expr (Codec.struct_parse Recorder.cfg)
      GenericLocationExprVisitor 1%nat (ByteList [0x12]) Recorder.new
    = Some (inl NotImplementedError, selfN,
            [ Visit visit_OP_with_no_args 0x12 "DW_OP_dup";
              After_visit (Some 0x12) (Some "DW_OP_dup") [] ]).
Proof.
  destruct (base_class_not_implemented
              (Codec.struct_parse Recorder.cfg)
              (ByteList [0x12]) Recorder.new _ (StringIO [x12]) x12
              "DW_OP_dup" 0%nat
              eq_refl eq_refl eq_refl ltac:(vm_compute; reflexivity))
    as (_ & _ & e & selfN & t & Hrun & _).
  exists selfN. revert Hrun. vm_compute. intros [= <- <- <-]. reflexivity.
Defined.

Lemma leb128_dispatch_witness :
  leb128_rule (_dispatch_table Recorder.new) "DW_OP_consts" = true /\
  unbound (_dispatch_table Recorder.new) "DW_OP_regx" = true /\
  apply_visitor_fn (Codec.struct_parse Recorder.cfg)
    (visitor_for_struct Dwarf_sleb128) 0x11 "DW_OP_consts"
    (set_stream (Some (mkStream [x11; xff; x7e] 1)) Recorder.new)
  = (inr tt,
     set_cur_args [-129]
       (set_stream (Some (mkStream [x11; xff; x7e] 3)) Recorder.new),
     [ Visit (visitor_for_struct Dwarf_sleb128) 0x11 "DW_OP_consts" ]).
Proof.
  destruct (leb128_dispatch (Codec.struct_parse Recorder.cfg)
              Recorder.cls ([] : Recorder.log))
    as (Hbound & Hunbound & Hrule & _).
  split_and!.
  - rewrite Forall_forall in Hbound. apply Hbound.
    unfold bound_leb128_ops. right. left.
  - rewrite Forall_forall in Hunbound. apply Hunbound.
    unfold unbound_leb128_ops. left.
  - apply (Hrule Dwarf_sleb128 0x11 "DW_OP_consts"
             (set_stream (Some (mkStream [x11; xff; x7e] 1)) Recorder.new)
             (mkStream [x11; xff; x7e] 1) (-129)
             (mkStream [x11; xff; x7e] 3)).
    + reflexivity.
    + vm_compute. reflexivity.
Defined.

Lemma generate_overwrites_witness :
  exists map',
    call_generate_dynamic_values
      {[ "DW_OP_lit0" := 0x99 ]} "DW_OP_lit" 0 31 0x30 = inr map' /\
    map' !! "DW_OP_lit0" = Some 0x30 /\
    map' !! "DW_OP_nop" = None.
Proof.
  destruct (generate_overwrites {[ "DW_OP_lit0" := 0x99 ]}
              "DW_OP_lit" 0 31 0x30)
    as (map' & Hcall & Hindex & Hother).
  exists map'. split_and!.
  - exact Hcall.
  - apply (Hindex 0). lia.
  - rewrite (Hother "DW_OP_nop"); [reflexivity|].
    intros i _. discriminate.
Defined.

End Runs.

(** * More on the table construction *)

Section TableConstruction.

Lemma elem_of_generated_names prefix a b (k : string) :
  k ∈ generated_names prefix a b
  <-> exists i, a <= i <= b /\ k = prefix +:+ str_of_int i.
Proof.
  unfold generated_names, range. rewrite list_elem_of_fmap. split.
  - intros (i & -> & Hi). apply elem_of_seqZ in Hi. exists i. split; [lia|done].
  - intros (i & Hi & ->). exists i. split; [done|]. apply elem_of_seqZ. lia.
Qed.

Lemma assign_all_size p a v l (m : gmap string Z) :
  NoDup l ->
  (forall i, i ∈ l -> m !! (p +:+ str_of_int i) = None) ->
  size (assign_all p a v l m) = (size m + length l)%nat.
Proof.
  revert m. induction l as [|x l IH]; intros m Hnd Hfresh.
  - simpl. lia.
  - apply NoDup_cons in Hnd as [Hx Hnd]. rewrite assign_all_cons, IH.
    + rewrite map_size_insert_None by (apply Hfresh; left). simpl. lia.
    + done.
    + intros i Hi. rewrite lookup_insert_ne.
      * apply Hfresh. by right.
      * intros E. apply name_inj in E. by subst.
Qed.

(** X1. The keys of the map after [_generate_dynamic_values] are the
    keys it had and the generated names; when none of the generated
    names was present, the map grows by exactly one entry per index of
    the inclusive range (distinct indices give distinct names); with
    [index_end] below [index_start] the range is empty and the map
    stays as it was. *)
Theorem generate_keys map prefix index_start index_end value_start :
  (forall k : string,
     is_Some (_generate_dynamic_values
                map prefix index_start index_end value_start !! k)
     <-> is_Some (map !! k)
         \/ k ∈ generated_names prefix index_start index_end) /\
  ((forall k, k ∈ generated_names prefix index_start index_end ->
              map !! k = None) ->
   size (_generate_dynamic_values
           map prefix index_start index_end value_start)
   = (size map + Z.to_nat (index_end + 1 - index_start))%nat) /\
  (index_end < index_start ->
   _generate_dynamic_values map prefix index_start index_end value_start
   = map).
Proof.
  split_and!.
  - intros k.
    destruct (decide (k ∈ generated_names prefix index_start index_end))
      as [Hk|Hk].
    + pose proof Hk as Hk'.
      apply elem_of_generated_names in Hk' as (i & Hi & ->).
      rewrite generate_lookup_index by done. split; [by right|by eexists].
    + rewrite generate_lookup_other; [tauto|].
      intros i Hi ->. apply Hk, elem_of_generated_names. by exists i.
  - intros Hfresh.
    unfold _generate_dynamic_values.
    fold (assign_all prefix index_start value_start
            (range index_start (index_end + 1)) map).
    rewrite assign_all_size.
    + unfold range. by rewrite length_seqZ.
    + apply NoDup_seqZ.
    + intros i Hi. apply Hfresh. apply elem_of_generated_names.
      apply elem_of_seqZ in Hi. exists i. split; [lia|done].
  - intros Hlt. unfold _generate_dynamic_values, range.
    by rewrite seqZ_nil by lia.
Qed.

Lemma generate_keys_witness :
  size (_generate_dynamic_values
          {[ "DW_OP_nop" := 0x96 ]} "DW_OP_lit" 0 31 0x30) = 33%nat /\
  _generate_dynamic_values {[ "DW_OP_nop" := 0x96 ]} "DW_OP_lit" 5 4 0x30
  = {[ "DW_OP_nop" := 0x96 ]}.
Proof.
  destruct (generate_keys {[ "DW_OP_nop" := 0x96 ]} "DW_OP_lit" 0 31 0x30)
    as (_ & Hsize & _).
  destruct (generate_keys {[ "DW_OP_nop" := 0x96 ]} "DW_OP_lit" 5 4 0x30)
    as (_ & _ & Hempty).
  split.
  - rewrite Hsize; [reflexivity|].
    intros k Hk. apply elem_of_generated_names in Hk as (i & _ & ->).
    reflexivity.
  - apply Hempty. lia.
Defined.

(** X2. Running [_generate_dynamic_values] a second time with the same
    arguments changes nothing: the call is idempotent. *)
Theorem generate_idempotent map prefix index_start index_end value_start :
  _generate_dynamic_values
    (_generate_dynamic_values map prefix index_start index_end value_start)
    prefix index_start index_end value_start
  = _generate_dynamic_values map prefix index_start index_end value_start.
Proof.
  apply map_eq. intros k.
  destruct (decide (k ∈ generated_names prefix index_start index_end))
    as [Hk|Hk].
  - apply elem_of_generated_names in Hk as (i & Hi & ->).
    by rewrite !generate_lookup_index.
  - rewrite generate_lookup_other; [done|].
    intros i Hi ->. apply Hk, elem_of_generated_names. by exists i.
Qed.

Lemma invert_fold_sound (items : list (string * Z)) (m : gmap Z string) c k :
  fold_left (fun m kv => <[kv.2 := kv.1]> m) items m !! c = Some k ->
  (k, c) ∈ items \/ m !! c = Some k.
Proof.
  revert m. induction items as [|[k' v] items IH]; intros m; [by right|].
  cbn [fold_left]. intros H. apply IH in H as [H|H]; [left; by right|].
  simpl in H. destruct (decide (v = c)) as [->|Hne].
  - rewrite lookup_insert_eq in H. injection H as ->. left. left.
  - rewrite lookup_insert_ne in H by done. by right.
Qed.

Lemma invert_fold_size (items : list (string * Z)) (m : gmap Z string) :
  (size (fold_left (fun m kv => <[kv.2 := kv.1]> m) items m)
   <= size m + length items)%nat.
Proof.
  revert m. induction items as [|[k v] items IH]; intros m; [simpl; lia|].
  cbn [fold_left]. etrans; [apply IH|]. simpl.
  rewrite map_size_insert. destruct (m !! v); simpl; lia.
Qed.

(** X3. The dict comprehension that inverts a map: every entry of the
    inverse comes from an entry of the map; when no two keys of the map
    share a value, every entry of the map is in the inverse (the
    inverse is exact); and the inverse never has more entries than the
    map. *)
Theorem invert_dict_inverse (d : gmap string Z) :
  (forall v k, invert_dict d !! v = Some k -> d !! k = Some v) /\
  ((forall k1 k2 v, d !! k1 = Some v -> d !! k2 = Some v -> k1 = k2) ->
   forall k v, d !! k = Some v -> invert_dict d !! v = Some k) /\
  (size (invert_dict d) <= size d)%nat.
Proof.
  unfold invert_dict, invert_items. split_and!.
  - intros v k H. apply invert_fold_sound in H as [H|H]; [|done].
    by apply elem_of_map_to_list in H.
  - intros Hinj k v Hkv. apply invert_fold_elem.
    + apply NoDup_fmap_2_strong; [|apply NoDup_map_to_list].
      intros [k1 v1] [k2 v2] H1 H2. simpl. intros <-.
      apply elem_of_map_to_list in H1, H2. f_equal. by eapply Hinj.
    + by apply elem_of_map_to_list.
  - etrans; [apply invert_fold_size|].
    rewrite map_size_empty, length_map_to_list. lia.
Qed.

Lemma invert_dict_inverse_witness :
  invert_dict {[ "DW_OP_dup" := 0x12; "DW_OP_nop" := 0x96 ]} !! 0x96
  = Some "DW_OP_nop".
Proof.
  apply (proj1 (proj2 (invert_dict_inverse
                         {[ "DW_OP_dup" := 0x12; "DW_OP_nop" := 0x96 ]}))).
  - intros k1 k2 v H1 H2.
    rewrite lookup_insert_Some, lookup_singleton_Some in H1, H2.
    destruct H1 as [[<- <-]|[? [<- <-]]], H2 as [[<- ?]|[? [<- ?]]];
      done.
  - vm_compute. reflexivity.
Defined.

(** X4. At each of the three calls that build [DW_OP_name2opcode], none
    of the names the call generates is in the map yet: the table is
    built without any entry being replaced, and holds the 68 listed
    names and the 96 generated ones. *)
Theorem families_do_not_collide :
  ~ collides name2opcode_static "DW_OP_lit" 0 31 /\
  ~ collides name2opcode_lit "DW_OP_reg" 0 31 /\
  ~ collides name2opcode_reg "DW_OP_breg" 0 31 /\
  DW_OP_name2opcode
  = _generate_dynamic_values name2opcode_reg "DW_OP_breg" 0 31 0x70 /\
  size name2opcode_static = 68%nat /\
  size DW_OP_name2opcode = (68 + 3 * 32)%nat.
Proof.
  assert (forall m p,
            Forall (fun i => m !! (p +:+ str_of_int i) = (None : option Z))
              (seqZ 0 32) ->
            ~ collides m p 0 31) as Hno.
  { intros m p HF (i & Hi & Hsome). rewrite Forall_forall in HF.
    rewrite HF in Hsome; [by destruct Hsome|]. apply elem_of_seqZ. lia. }
  split_and!.
  - apply Hno. apply (bool_decide_unpack _). vm_compute. reflexivity.
  - apply Hno. apply (bool_decide_unpack _). vm_compute. reflexivity.
  - apply Hno. apply (bool_decide_unpack _). vm_compute. reflexivity.
  - reflexivity.
  - vm_compute. reflexivity.
  - vm_compute. reflexivity.
Qed.

(** X5. Every code of the table is a byte value, so every defined
    opcode can be read from a stream; of the 256 byte values, 92 have
    no name and are rejected by the name lookup. *)
Theorem opcodes_are_bytes :
  (forall name code,
     DW_OP_name2opcode !! name = Some code ->
     exists b : byte, ord b = code /\ DW_OP_opcode2name !! ord b = Some name) /\
  length all_bytes = 256%nat /\
  length (filter (fun b => DW_OP_opcode2name !! ord b = None) all_bytes)
  = 92%nat.
Proof.
  split_and!.
  - intros name code Hname.
    assert (map_Forall (fun _ code => 0 <= code < 256) DW_OP_name2opcode)
      as Hbytes by (apply (bool_decide_unpack _); vm_compute; reflexivity).
    pose proof (Hbytes _ _ Hname) as Hrange. simpl in Hrange.
    destruct (Byte.of_N (Z.to_N code)) as [b|] eqn:Eb.
    + exists b. apply Byte.to_of_N in Eb.
      assert (ord b = code) as -> by (unfold ord; rewrite Eb; lia).
      split; [done|]. by apply name2opcode_forall.
    + apply Byte.of_N_None_iff in Eb. lia.
  - vm_compute. reflexivity.
  - vm_compute. reflexivity.
Qed.

Lemma opcodes_are_bytes_witness :
  exists b : byte,
    ord b = 0x9f /\ DW_OP_opcode2name !! ord b = Some "DW_OP_stack_value".
Proof.
  apply (proj1 opcodes_are_bytes). vm_compute. reflexivity.
Defined.

End TableConstruction.

(** * More on the dispatch table *)

Section DispatchTable.

Context {value U : Type}.

Local Opaque DW_OP_opcode2name DW_OP_name2opcode dispatch_table.

(** X6. Creating a visitor never raises: every name
    [_init_dispatch_table] passes to [add] is in [DW_OP_name2opcode].
    The new object has no stream, no current opcode or name, an empty
    operand list, and a dispatch table of 137 entries whose keys are
    exactly the codes of the defined opcodes other than the 27 of
    [default_ops]. *)
Theorem init_returns (u : U) :
  exists self : Visitor value U,
    __init__ u = (inr tt, self, []) /\
    stream self = None /\
    _cur_opcode self = None /\
    _cur_opcode_name self = None /\
    _cur_args self = [] /\
    user self = u /\
    size (_dispatch_table self) = 137%nat /\
    length default_ops = 27%nat /\
    (forall opcode f,
       _dispatch_table self !! opcode = Some f ->
       is_Some (DW_OP_opcode2name !! opcode)) /\
    (forall name opcode,
       DW_OP_name2opcode !! name = Some opcode ->
       (_dispatch_table self !! opcode = None <-> name ∈ default_ops)).
Proof.
  eexists. split; [apply init_dispatch_table|].
  cbn [stream _cur_opcode _cur_opcode_name _cur_args user _dispatch_table].
  do 5 (split; [reflexivity|]).
  split; [vm_compute; reflexivity|].
  split; [reflexivity|].
  split.
  - assert (map_Forall
              (fun opcode _ => is_Some (DW_OP_opcode2name !! opcode))
              dispatch_table) as H
      by (apply (bool_decide_unpack _); vm_compute; reflexivity).
    intros opcode f Hf. exact (H _ _ Hf).
  - assert (map_Forall
              (fun name opcode =>
                 bool_decide (name ∈ default_ops)
                 = match dispatch_table !! opcode with
                   | Some _ => false
                   | None => true
                   end)
              DW_OP_name2opcode) as H
      by (apply (bool_decide_unpack _); vm_compute; reflexivity).
    intros name opcode Hname. specialize (H _ _ Hname). cbv beta in H.
    destruct (dispatch_table !! opcode) as [f|].
    + apply bool_decide_eq_false in H.
      split; [intros [=]|intros Hin; destruct (H Hin)].
    + apply bool_decide_eq_true in H.
      split; [intros _; exact H|reflexivity].
Qed.

(** X7. The rules of the table by kind: each of the 26 opcodes of the
    no-operand list, each DW_OP_lit and each DW_OP_reg is bound to the
    no-operand rule, and each DW_OP_breg to the struct rule on the
    SLEB128 struct; the same for all 32 members of a family. *)
Theorem dispatch_by_kind (u : U) :
  let table := _dispatch_table (__init__ (value := value) u).1.2 in
  (forall name,
     name ∈ no_args_ops ->
     exists opcode,
       DW_OP_name2opcode !! name = Some opcode /\
       table !! opcode = Some visit_OP_with_no_args) /\
  (forall i,
     0 <= i <= 31 ->
     table !! (0x30 + i) = Some visit_OP_with_no_args /\
     table !! (0x50 + i) = Some visit_OP_with_no_args /\
     table !! (0x70 + i) = Some (visitor_for_struct Dwarf_sleb128)).
Proof.
  rewrite init_dispatch_table. cbn [fst snd _dispatch_table]. split.
  - assert (Forall
              (fun name =>
                 match DW_OP_name2opcode !! name with
                 | Some opcode =>
                     match dispatch_table !! opcode with
                     | Some visit_OP_with_no_args => true
                     | _ => false
                     end
                 | None => false
                 end = true)
              no_args_ops) as H
      by (apply (bool_decide_unpack _); vm_compute; reflexivity).
    intros name Hname. rewrite Forall_forall in H. specialize (H _ Hname).
    destruct (DW_OP_name2opcode !! name) as [opcode|]; [|discriminate].
    exists opcode. split; [done|].
    by destruct (dispatch_table !! opcode) as [[|?]|].
  - assert (Forall
              (fun i =>
                 dispatch_table !! (0x30 + i) = Some visit_OP_with_no_args /\
                 dispatch_table !! (0x50 + i) = Some visit_OP_with_no_args /\
                 dispatch_table !! (0x70 + i)
                 = Some (visitor_for_struct Dwarf_sleb128))
              (seqZ 0 32)) as H
      by (apply (bool_decide_unpack _); vm_compute; reflexivity).
    intros i Hi. rewrite Forall_forall in H. apply H.
    apply elem_of_seqZ. lia.
Qed.

End DispatchTable.

Lemma init_returns_witness :
  exists self : Visitor Z Recorder.log,
    __init__ [] = (inr tt, self, []) /\
    is_Some (DW_OP_opcode2name !! 0x12) /\
    _dispatch_table self !! 0x27 = None.
Proof.
  destruct (@init_returns Z Recorder.log [])
    as (self & Hinit & _ & _ & _ & _ & _ & _ & _ & Hkeys & Hdefault).
  exists self. split_and!.
  - exact Hinit.
  - apply (Hkeys 0x12 visit_OP_with_no_args).
    rewrite init_dispatch_table in Hinit. injection Hinit as <-.
    vm_compute. reflexivity.
  - apply (Hdefault "DW_OP_xor" 0x27); [vm_compute; reflexivity|].
    unfold default_ops. left.
Defined.

Lemma dispatch_by_kind_witness :
  _dispatch_table Recorder.new !! 0x8f
  = Some (visitor_for_struct Dwarf_sleb128).
Proof.
  apply (proj2 (@dispatch_by_kind Z Recorder.log []) 31).
  lia.
Defined.

(** * More on the decode loop *)

Section Outcomes.

Context {value U : Type}.
Variable struct_parse : Struct -> Stream -> result value * Stream.
Variable cls : Overrides value U.

Local Abbreviation Visitor := (Visitor value U).
Local Abbreviation loop_body := (loop_body struct_parse cls).
Local Abbreviation process_loop := (process_loop struct_parse cls).
Local Abbreviation process_expr := (process_expr struct_parse cls).
Local Abbreviation run_rule := (run_rule struct_parse cls).

Local Opaque DW_OP_opcode2name DW_OP_name2opcode ord.

Lemma loop_body_no_stream (self : Visitor) :
  stream self = None -> loop_body self = (inl AttributeError, self, []).
Proof.
  intros Hs. unfold loop_body, bind, stream_read. by rewrite Hs.
Qed.

(** A turn of the loop on a defined opcode, by the outcome of the
    opcode's rule and of the completion hook. *)
Lemma loop_body_turn (self : Visitor) s b nm :
  stream self = Some s ->
  buf s !! pos s = Some b ->
  DW_OP_opcode2name !! ord b = Some nm ->
  loop_body self
  = match run_rule (ord b) nm (opcode_read b nm s self) with
    | (inl e, v) => (inl e, v, [rule_call self (ord b) nm])
    | (inr _, v) =>
        let c := After_visit (_cur_opcode v) (_cur_opcode_name v)
                   (_cur_args v) in
        match _after_visit cls (_cur_opcode v) (_cur_opcode_name v)
                (_cur_args v) v with
        | (inl e, v') => (inl e, v', [rule_call self (ord b) nm; c])
        | (inr _, v') => (inr true, v', [rule_call self (ord b) nm; c])
        end
    end.
Proof.
  intros Hs Hb Hnm. unfold loop_body, bind, stream_read.
  rewrite Hs, (read_byte s b Hb). cbn -[ord]. rewrite Hnm. cbn -[ord].
  unfold run_rule, rule_call, opcode_read. cbn -[ord].
  destruct (_dispatch_table self !! ord b) as [[|struct]|];
    unfold apply_visitor_fn, _visit_OP_with_no_args, bind, modify, get, ret,
      emit, call_method, struct_visitor; cbn -[ord].
  - destruct (_after_visit cls _ _ _ _) as [[e|[]] v']; reflexivity.
  - destruct (struct_parse struct _) as [[e|v] s1]; cbn -[ord];
      [reflexivity|].
    destruct (_after_visit cls _ _ _ _) as [[e|[]] v']; reflexivity.
  - destruct (_default_visitor cls _ _ _) as [[e|[]] v]; cbn -[ord];
      [reflexivity|].
    destruct (_after_visit cls _ _ _ _) as [[e|[]] v']; reflexivity.
Qed.

Lemma completion_calls_turn (self : Visitor) opcode nm o n a :
  completion_calls [rule_call self opcode nm; After_visit o n a]
  = [(o, n, a)].
Proof. by rewrite completion_calls_rule_call. Qed.

Lemma completion_calls_rule (self : Visitor) opcode nm :
  completion_calls [rule_call self opcode nm] = [].
Proof. by rewrite completion_calls_rule_call. Qed.

(** What a turn of the loop leaves, whatever its outcome. *)
Lemma loop_body_outcome (self v : Visitor) r t :
  loop_body self = (r, v, t) ->
  (r = inr false -> t = [] /\ exhausted v) /\
  (r = inr true ->
   length t = 2%nat /\ length (completion_calls t) = 1%nat) /\
  (2 * length (completion_calls t) <= length t
   <= 2 * length (completion_calls t) + 1)%nat.
Proof.
  destruct (stream self) as [s|] eqn:Hs.
  2:{ rewrite (loop_body_no_stream self Hs). intros [= <- <- <-].
      split_and!; [intros [=]|intros [=]|cbn; lia|cbn; lia]. }
  destruct (buf s !! pos s) as [b|] eqn:Hb.
  2:{ apply lookup_ge_None in Hb.
      rewrite (loop_body_exhausted struct_parse cls self s Hs Hb).
      intros [= <- <- <-]. split_and!; [|intros [=]|cbn; lia|cbn; lia].
      intros _. split; [reflexivity|]. unfold exhausted. cbn. lia. }
  destruct (DW_OP_opcode2name !! ord b) as [nm|] eqn:Hnm.
  2:{ rewrite (loop_body_unknown struct_parse cls self s b Hs Hb Hnm).
      intros [= <- <- <-].
      split_and!; [intros [=]|intros [=]|cbn; lia|cbn; lia]. }
  rewrite (loop_body_turn self s b nm Hs Hb Hnm).
  destruct (run_rule _ _ _) as [[e|[]] v1].
  { intros [= <- <- <-]. rewrite completion_calls_rule.
    split_and!; [intros [=]|intros [=]|cbn; lia|cbn; lia]. }
  cbv zeta.
  destruct (_after_visit cls _ _ _ v1) as [[e|[]] v2];
    intros [= <- <- <-]; rewrite completion_calls_turn.
  - split_and!; [intros [=]|intros [=]|cbn; lia|cbn; lia].
  - split_and!; [intros [=]|intros _; split; reflexivity|cbn; lia|cbn; lia].
Qed.

Lemma bind_stream_trace expr (self v : Visitor) r t :
  bind_stream expr self = (r, v, t) -> t = [].
Proof.
  destruct expr as [s|l]; simpl.
  - by intros [= _ _ <-].
  - destruct (bytelist2string l); by intros [= _ _ <-].
Qed.

Lemma process_loop_normal fuel (self self' : Visitor) t :
  process_loop fuel self = Some (inr tt, self', t) ->
  exhausted self' /\
  length t = (2 * length (completion_calls t))%nat /\
  (length (completion_calls t) < fuel)%nat.
Proof.
  revert self t. induction fuel as [|fuel IH]; intros self t; [discriminate|].
  rewrite process_loop_S.
  destruct (loop_body self) as [[[e|[|]] v] t1] eqn:Hbody; [discriminate| |].
  - destruct (process_loop fuel v) as [[[r2 v2] t2]|] eqn:Hrec;
      [|discriminate].
    intros [= -> <- <-]. apply IH in Hrec as (Hex & Hlen & Hlt).
    apply loop_body_outcome in Hbody as (_ & Htrue & _).
    destruct (Htrue eq_refl) as [H1 H2].
    rewrite completion_calls_app, !length_app, H1, H2, Hlen.
    split_and!; [done|lia|lia].
  - intros [= <- <-].
    apply loop_body_outcome in Hbody as (Hfalse & _ & _).
    destruct (Hfalse eq_refl) as [-> Hex]. split_and!; [done|done|simpl; lia].
Qed.

(** X8. [process_expr] returns normally only through the [break] of the
    loop: when it returns, nothing is left to read from the stream of
    the object, and its calls are rule calls and completion calls in
    alternation, one completion call for each rule call. *)
Theorem normal_return_exhausted fuel expr (self0 self' : Visitor) t :
  process_expr fuel expr self0 = Some (inr tt, self', t) ->
  exhausted self' /\
  length t = (2 * length (completion_calls t))%nat /\
  (length (completion_calls t) < fuel)%nat.
Proof.
  unfold process_expr.
  destruct (bind_stream expr self0) as [[[e|[]] v] t0] eqn:Hbind;
    [discriminate|].
  apply bind_stream_trace in Hbind as ->.
  destruct (process_loop fuel v) as [[[r2 v2] t2]|] eqn:Hloop; [|discriminate].
  intros [= -> <- <-]. by apply process_loop_normal in Hloop.
Qed.

Lemma process_loop_trace fuel (self self' : Visitor) r t :
  process_loop fuel self = Some (r, self', t) ->
  (2 * length (completion_calls t) <= length t
   <= 2 * length (completion_calls t) + 1)%nat.
Proof.
  revert self self' r t.
  induction fuel as [|fuel IH]; intros self self' r t; [discriminate|].
  rewrite process_loop_S.
  destruct (loop_body self) as [[[e|[|]] v] t1] eqn:Hbody.
  - intros [= _ _ <-]. by apply loop_body_outcome in Hbody as (_ & _ & H).
  - destruct (process_loop fuel v) as [[[r2 v2] t2]|] eqn:Hrec;
      [|discriminate].
    intros [= _ _ <-]. apply IH in Hrec.
    apply loop_body_outcome in Hbody as (_ & Htrue & _).
    destruct (Htrue eq_refl) as [H1 H2].
    rewrite completion_calls_app, !length_app, H1, H2. lia.
  - intros [= _ _ <-]. by apply loop_body_outcome in Hbody as (_ & _ & H).
Qed.

(** X9. Whatever way a run of [process_expr] ends, every rule call of
    its trace except possibly the last has its completion call: the
    trace holds as many completion calls as rule calls, or one less
    (when the last rule raised). *)
Theorem trace_alternates fuel expr (self0 self' : Visitor) r t :
  process_expr fuel expr self0 = Some (r, self', t) ->
  (2 * length (completion_calls t) <= length t
   <= 2 * length (completion_calls t) + 1)%nat.
Proof.
  unfold process_expr.
  destruct (bind_stream expr self0) as [[[e|[]] v] t0] eqn:Hbind.
  - apply bind_stream_trace in Hbind as ->. intros [= _ _ <-]. simpl. lia.
  - apply bind_stream_trace in Hbind as ->.
    destruct (process_loop fuel v) as [[[r2 v2] t2]|] eqn:Hloop;
      [|discriminate].
    intros [= _ _ <-]. by apply process_loop_trace in Hloop.
Qed.

(** X10. When the struct rule bound to the opcode fails in the codec,
    the codec's exception leaves the loop as it is: the completion hook
    is not called for that instruction, the stream stays where the
    codec left it, and [_cur_args] still holds the operands of the
    instruction before, next to the new opcode and name. *)
Theorem struct_rule_error_propagates
    (self : Visitor) s b nm struct e s1 fuel :
  stream self = Some s ->
  buf s !! pos s = Some b ->
  DW_OP_opcode2name !! ord b = Some nm ->
  _dispatch_table self !! ord b = Some (visitor_for_struct struct) ->
  struct_parse struct (mkStream (buf s) (pos s + 1)) = (inl e, s1) ->
  exists self',
    process_loop (S fuel) self
    = Some (inl e, self', [Visit (visitor_for_struct struct) (ord b) nm]) /\
    stream self' = Some s1 /\
    _cur_opcode self' = Some (ord b) /\
    _cur_opcode_name self' = Some nm /\
    _cur_args self' = _cur_args self /\
    user self' = user self.
Proof.
  intros Hs Hb Hnm Htable Hparse.
  rewrite process_loop_S, (loop_body_turn self s b nm Hs Hb Hnm).
  unfold run_rule, rule_call, opcode_read. cbn -[ord]. rewrite Htable.
  unfold apply_visitor_fn, bind, emit, struct_visitor. cbn -[ord].
  rewrite Hparse. cbn -[ord]. eexists. split_and!; reflexivity.
Qed.

(** X11. An exception of the subclass leaves the loop as it is. When the
    default visitor raises, the completion hook is not called; when the
    completion hook raises, no further byte is read: the run ends with
    that exception and the object as the method left it. *)
Theorem subclass_exception_propagates :
  (forall (self self1 : Visitor) s b nm e fuel,
     stream self = Some s ->
     buf s !! pos s = Some b ->
     DW_OP_opcode2name !! ord b = Some nm ->
     _dispatch_table self !! ord b = None ->
     _default_visitor cls (ord b) nm (opcode_read b nm s self)
     = (inl e, self1) ->
     process_loop (S fuel) self
     = Some (inl e, self1, [Default_visit (ord b) nm])) /\
  (forall (self self1 self2 : Visitor) s b nm e fuel,
     stream self = Some s ->
     buf s !! pos s = Some b ->
     DW_OP_opcode2name !! ord b = Some nm ->
     run_rule (ord b) nm (opcode_read b nm s self) = (inr tt, self1) ->
     _after_visit cls (_cur_opcode self1) (_cur_opcode_name self1)
       (_cur_args self1) self1 = (inl e, self2) ->
     process_loop (S fuel) self
     = Some (inl e, self2,
             [ rule_call self (ord b) nm;
               After_visit (_cur_opcode self1) (_cur_opcode_name self1)
                 (_cur_args self1) ])).
Proof.
  split.
  - intros self self1 s b nm e fuel Hs Hb Hnm Htable Hdef.
    rewrite process_loop_S, (loop_body_turn self s b nm Hs Hb Hnm).
    unfold run_rule, rule_call.
    replace (_dispatch_table (opcode_read b nm s self) !! ord b)
      with (None : option visitor_fn) by (symmetry; exact Htable).
    rewrite Hdef, Htable. reflexivity.
  - intros self self1 self2 s b nm e fuel Hs Hb Hnm Hrule Hhook.
    rewrite process_loop_S, (loop_body_turn self s b nm Hs Hb Hnm).
    rewrite Hrule. cbv zeta. rewrite Hhook. reflexivity.
Qed.

(** X12. After the [KeyError] of an unknown opcode the object shows the
    byte that was refused: the byte has been consumed and stored in
    [_cur_opcode], while [_cur_opcode_name] and [_cur_args] are still
    those of the instruction before. *)
Theorem unknown_opcode_state (self : Visitor) s b fuel :
  stream self = Some s ->
  buf s !! pos s = Some b ->
  DW_OP_opcode2name !! ord b = None ->
  exists self',
    process_loop (S fuel) self
    = Some (inl (KeyError (KInt (ord b))), self', []) /\
    stream self' = Some (mkStream (buf s) (pos s + 1)) /\
    _cur_opcode self' = Some (ord b) /\
    _cur_opcode_name self' = _cur_opcode_name self /\
    _cur_args self' = _cur_args self /\
    user self' = user self.
Proof.
  intros Hs Hb Hnm.
  rewrite process_loop_S,
    (loop_body_unknown struct_parse cls self s b Hs Hb Hnm).
  eexists. split_and!; reflexivity.
Qed.

(** X13. An opcode bound to the no-operand rule takes exactly its own
    byte: the completion hook is called with an empty operand list,
    whatever [_cur_args] held before, on an object whose stream stands
    one byte further, and no codec call is made. *)
Theorem no_operand_turn (self self2 : Visitor) s b nm r :
  stream self = Some s ->
  buf s !! pos s = Some b ->
  DW_OP_opcode2name !! ord b = Some nm ->
  _dispatch_table self !! ord b = Some visit_OP_with_no_args ->
  _after_visit cls (Some (ord b)) (Some nm) []
    (set_cur_args [] (opcode_read b nm s self)) = (r, self2) ->
  stream (set_cur_args [] (opcode_read b nm s self))
  = Some (mkStream (buf s) (pos s + 1)) /\
  loop_body self
  = (match r with inl e => inl e | inr _ => inr true end, self2,
     [ Visit visit_OP_with_no_args (ord b) nm;
       After_visit (Some (ord b)) (Some nm) [] ]).
Proof.
  intros Hs Hb Hnm Htable Hhook. split; [reflexivity|].
  rewrite (loop_body_turn self s b nm Hs Hb Hnm).
  unfold run_rule, rule_call, opcode_read. cbn -[ord]. rewrite Htable.
  cbn -[ord]. unfold opcode_read in Hhook. cbn -[ord] in Hhook.
  rewrite Hhook. destruct r as [e|[]]; reflexivity.
Qed.

Section Budget.

Hypothesis codec_advances :
  forall struct s, (remaining (struct_parse struct s).2 <= remaining s)%nat.
Hypothesis default_visitor_advances :
  forall opcode nm (self : Visitor),
    (bytes_left (_default_visitor cls opcode nm self).2
     <= bytes_left self)%nat.
Hypothesis after_visit_advances :
  forall opcode nm args (self : Visitor),
    (bytes_left (_after_visit cls opcode nm args self).2
     <= bytes_left self)%nat.

Lemma run_rule_advances opcode nm (self : Visitor) :
  (bytes_left (run_rule opcode nm self).2 <= bytes_left self)%nat.
Proof.
  unfold run_rule. destruct (_dispatch_table self !! opcode) as [f|].
  - destruct (apply_visitor_fn struct_parse f opcode nm self)
      as [[r v] t] eqn:H.
    by apply (apply_visitor_fn_advances struct_parse codec_advances) in H.
  - apply default_visitor_advances.
Qed.

Lemma loop_body_budget (self v : Visitor) r t :
  loop_body self = (r, v, t) ->
  (length (completion_calls t) + bytes_left v <= bytes_left self)%nat.
Proof.
  destruct (stream self) as [s|] eqn:Hs.
  2:{ rewrite (loop_body_no_stream self Hs). intros [= <- <- <-].
      cbn. lia. }
  destruct (buf s !! pos s) as [b|] eqn:Hb.
  2:{ apply lookup_ge_None in Hb.
      rewrite (loop_body_exhausted struct_parse cls self s Hs Hb).
      intros [= <- <- <-]. unfold bytes_left, remaining. rewrite Hs.
      cbn. lia. }
  pose proof (lookup_lt_Some _ _ _ Hb) as Hlt.
  destruct (DW_OP_opcode2name !! ord b) as [nm|] eqn:Hnm.
  2:{ rewrite (loop_body_unknown struct_parse cls self s b Hs Hb Hnm).
      intros [= <- <- <-]. unfold bytes_left, remaining. rewrite Hs.
      cbn. lia. }
  assert (bytes_left (opcode_read b nm s self) + 1 <= bytes_left self)%nat
    as Hread.
  { unfold bytes_left, remaining, opcode_read. rewrite Hs. cbn. lia. }
  rewrite (loop_body_turn self s b nm Hs Hb Hnm).
  pose proof (run_rule_advances (ord b) nm (opcode_read b nm s self))
    as Hrule.
  destruct (run_rule _ _ _) as [[e|[]] v1]; cbn [snd] in Hrule.
  { intros [= <- <- <-]. rewrite completion_calls_rule. cbn. lia. }
  cbv zeta.
  pose proof (after_visit_advances (_cur_opcode v1) (_cur_opcode_name v1)
                (_cur_args v1) v1) as Hhook.
  destruct (_after_visit cls _ _ _ v1) as [[e|[]] v2]; cbn [snd] in Hhook;
    intros [= <- <- <-]; rewrite completion_calls_turn; cbn [length]; lia.
Qed.

Lemma process_loop_budget fuel (self self' : Visitor) r t :
  process_loop fuel self = Some (r, self', t) ->
  (length (completion_calls t) + bytes_left self' <= bytes_left self)%nat.
Proof.
  revert self self' r t.
  induction fuel as [|fuel IH]; intros self self' r t; [discriminate|].
  rewrite process_loop_S.
  destruct (loop_body self) as [[[e|[|]] v] t1] eqn:Hbody.
  - intros [= _ <- <-]. by apply loop_body_budget in Hbody.
  - destruct (process_loop fuel v) as [[[r2 v2] t2]|] eqn:Hrec;
      [|discriminate].
    intros [= _ <- <-]. apply IH in Hrec. apply loop_body_budget in Hbody.
    rewrite completion_calls_app, length_app. lia.
  - intros [= _ <- <-]. by apply loop_body_budget in Hbody.
Qed.

(** X14. When the codec and the subclass's methods only move the stream
    forward, a run of [process_expr] completes at most one instruction
    per byte of its input: the number of completion calls is at most
    the length of the input. *)
Theorem instruction_count_bound fuel expr (self0 self' : Visitor) r t :
  process_expr fuel expr self0 = Some (r, self', t) ->
  (length (completion_calls t) <= input_length expr)%nat.
Proof.
  unfold process_expr.
  destruct (bind_stream expr self0) as [[[e|[]] v] t0] eqn:Hbind.
  - apply bind_stream_trace in Hbind as ->. intros [= _ _ <-]. cbn. lia.
  - pose proof Hbind as Hlen. apply bind_stream_trace in Hbind as ->.
    apply bind_stream_length in Hlen.
    destruct (process_loop fuel v) as [[[r2 v2] t2]|] eqn:Hloop;
      [|discriminate].
    intros [= _ _ <-]. apply process_loop_budget in Hloop.
    cbn [app]. lia.
Qed.

End Budget.

End Outcomes.

(** * More runs on concrete inputs *)

Section MoreRuns.

Local Abbreviation sp := (Codec.struct_parse Recorder.cfg).
Local Abbreviation run := (process_expr sp Recorder.cls).
Local Abbreviation at_bytes :=
  (fun data => set_stream (Some (StringIO data)) Recorder.new).

Lemma normal_return_exhausted_witness :
  exists self' t,
    run 3%nat (ByteList [0x08; 0x2a; 0x12]) Recorder.new
    = Some (inr tt, self', t) /\
    exhausted self' /\ length t = 4%nat.
Proof.
  assert (exists self' t,
            run 3%nat (ByteList [0x08; 0x2a; 0x12]) Recorder.new
            = Some (inr tt, self', t) /\
            length (completion_calls t) = 2%nat)
    as (self' & t & Hrun & Hcalls)
    by (vm_compute; eexists _, _; split; reflexivity).
  destruct (normal_return_exhausted sp Recorder.cls _ _ _ _ _ Hrun)
    as (Hex & Hlen & _).
  exists self', t. split_and!; [exact Hrun|exact Hex|lia].
Defined.

Lemma trace_alternates_witness :
  exists r self' t,
    run 3%nat (ByteList [0x12; 0x0a; 0x01]) Recorder.new
    = Some (r, self', t) /\
    length (completion_calls t) = 1%nat /\
    (2 <= length t <= 3)%nat.
Proof.
  assert (exists r self' t,
            run 3%nat (ByteList [0x12; 0x0a; 0x01]) Recorder.new
            = Some (r, self', t) /\
            length (completion_calls t) = 1%nat)
    as (r & self' & t & Hrun & Hcalls)
    by (vm_compute; eexists _, _, _; split; reflexivity).
  pose proof (trace_alternates sp Recorder.cls _ _ _ _ _ _ Hrun) as Hlen.
  exists r, self', t. split_and!; [exact Hrun|exact Hcalls|lia|lia].
Defined.

Lemma struct_rule_error_propagates_witness :
  exists self',
    process_loop sp Recorder.cls 1%nat
      (set_cur_args [42] (at_bytes [x0a; x01]))
    = Some (inl ELFParseError, self',
            [Visit (visitor_for_struct Dwarf_uint16) (ord x0a)
               "DW_OP_const2u"]) /\
    _cur_args self' = [42].
Proof.
  destruct (struct_rule_error_propagates sp Recorder.cls
              (set_cur_args [42] (at_bytes [x0a; x01]))
              (StringIO [x0a; x01]) x0a "DW_OP_const2u" Dwarf_uint16
              ELFParseError (mkStream [x0a; x01] 2) 0%nat
              eq_refl eq_refl
              ltac:(vm_compute; reflexivity)
              ltac:(vm_compute; reflexivity)
              ltac:(vm_compute; reflexivity))
    as (self' & Hrun & _ & _ & _ & Hargs & _).
  exists self'. split; [exact Hrun|exact Hargs].
Defined.

Lemma subclass_exception_propagates_witness :
  process_loop sp GenericLocationExprVisitor 1%nat (at_bytes [x96])
  = Some (inl NotImplementedError,
          opcode_read x96 "DW_OP_nop" (StringIO [x96]) (at_bytes [x96]),
          [Default_visit (ord x96) "DW_OP_nop"]).
Proof.
  apply (proj1 (subclass_exception_propagates sp GenericLocationExprVisitor)
           (at_bytes [x96]) _ (StringIO [x96]) x96 "DW_OP_nop"
           NotImplementedError 0%nat).
  - reflexivity.
  - reflexivity.
  - vm_compute. reflexivity.
  - vm_compute. reflexivity.
  - reflexivity.
Defined.

Lemma unknown_opcode_state_witness :
  exists self',
    process_loop sp Recorder.cls 1%nat
      (set_cur_args [42] (at_bytes [x00]))
    = Some (inl (KeyError (KInt (ord x00))), self', []) /\
    _cur_opcode self' = Some (ord x00) /\
    _cur_args self' = [42].
Proof.
  destruct (unknown_opcode_state sp Recorder.cls
              (set_cur_args [42] (at_bytes [x00])) (StringIO [x00]) x00
              0%nat eq_refl eq_refl ltac:(vm_compute; reflexivity))
    as (self' & Hrun & _ & Hop & _ & Hargs & _).
  exists self'. split_and!; [exact Hrun|exact Hop|exact Hargs].
Defined.

Lemma no_operand_turn_witness :
  exists self2,
    loop_body sp Recorder.cls (set_cur_args [42] (at_bytes [x12]))
    = (inr true, self2,
       [ Visit visit_OP_with_no_args (ord x12) "DW_OP_dup";
         After_visit (Some (ord x12)) (Some "DW_OP_dup") [] ]).
Proof.
  eexists.
  apply (proj2 (no_operand_turn sp Recorder.cls
                  (set_cur_args [42] (at_bytes [x12])) _
                  (StringIO [x12]) x12 "DW_OP_dup" (inr tt)
                  eq_refl eq_refl
                  ltac:(vm_compute; reflexivity)
                  ltac:(vm_compute; reflexivity)
                  eq_refl)).
Defined.

Lemma instruction_count_bound_witness :
  exists r self' t,
    run 10%nat (ByteList [0x08; 0x2a; 0x96; 0x12]) Recorder.new
    = Some (r, self', t) /\
    (length (completion_calls t) <= 4)%nat.
Proof.
  assert (exists r self' t,
            run 10%nat (ByteList [0x08; 0x2a; 0x96; 0x12]) Recorder.new
            = Some (r, self', t))
    as (r & self' & t & Hrun)
    by (vm_compute; eexists _, _, _; reflexivity).
  exists r, self', t. split; [exact Hrun|].
  apply (instruction_count_bound sp Recorder.cls
           (codec_struct_parse_advances Recorder.cfg)
           recorder_default_visitor_advances
           recorder_after_visit_advances _ _ _ _ _ _ Hrun).
Defined.

Lemma opcode2name_order_witness :
  invert_items (reverse (map_to_list DW_OP_name2opcode))
  = DW_OP_opcode2name.
Proof.
  apply (opcode2name_order (reverse (map_to_list DW_OP_name2opcode))).
  apply reverse_Permutation.
Defined.

End MoreRuns.

(** * A completion hook that rewinds *)

Section Rewinding.

Local Abbreviation sp := (Codec.struct_parse Recorder.cfg).

Lemma rewound_turn :
  loop_body sp Rewinder.cls Rewinder.rewound
  = (inr true, Rewinder.rewound,
     [ Visit visit_OP_with_no_args 0x12 "DW_OP_dup";
       After_visit (Some 0x12) (Some "DW_OP_dup") [] ]).
Proof. vm_compute. reflexivity. Qed.

Lemma first_turn :
  loop_body sp Rewinder.cls
    (set_stream (Some (StringIO [x12])) Rewinder.new)
  = (inr true, Rewinder.rewound,
     [ Visit visit_OP_with_no_args 0x12 "DW_OP_dup";
       After_visit (Some 0x12) (Some "DW_OP_dup") [] ]).
Proof. vm_compute. reflexivity. Qed.

Lemma rewound_loop fuel :
  process_loop sp Rewinder.cls fuel Rewinder.rewound = None.
Proof.
  induction fuel as [|fuel IH]; [reflexivity|].
  rewrite process_loop_S, rewound_turn, IH. reflexivity.
Qed.

(** C9, as stated, fails. The codec and the default visitor of this
    subclass only move the stream forward, and still [process_expr]
    never returns on the one-byte input DW_OP_dup: the completion hook
    seeks back to the start, the loop reads the same byte again, and no
    number of turns is enough. *)
Lemma rewinding_hook_never_terminates :
  ~ ((forall struct s,
        (remaining (sp struct s).2 <= remaining s)%nat) ->
     (forall opcode nm (self : Visitor Z unit),
        (bytes_left (_default_visitor Rewinder.cls opcode nm self).2
         <= bytes_left self)%nat) ->
     exists fuel,
       is_Some (process_expr sp Rewinder.cls fuel (ByteList [0x12])
                  Rewinder.new)).
Proof.
  intros H.
  destruct H as [fuel [r Hrun]].
  - apply codec_struct_parse_advances.
  - intros opcode nm self. reflexivity.
  - assert (process_expr sp Rewinder.cls fuel (ByteList [0x12]) Rewinder.new
            = None) as E.
    { unfold process_expr.
      change (bind_stream (ByteList [0x12]) Rewinder.new)
        with (@inr exn unit tt,
              set_stream (Some (StringIO [x12])) Rewinder.new,
              @nil (call Z)).
      cbv iota beta.
      destruct fuel as [|fuel]; [reflexivity|].
      rewrite process_loop_S, first_turn, rewound_loop. reflexivity. }
    rewrite E in Hrun. discriminate Hrun.
Qed.

End Rewinding.
